(** * analysis_kit: the permutation test

    A shallow embedding of [permutation.py] (the coordinator,
    [permutation_test]) and [helpers.py] (the worker, [_run_permutations]).

    Modelling conventions.
    - NumPy floats are exact rationals plus [NaN] (the mean of an empty
      selection); rounding, infinities and [nan] data are not modelled, so
      the data are finite numbers whose sums and means are exact.  Every
      comparison with [NaN] is false, as in IEEE arithmetic.
    - Python integers are unbounded ([Z]).  Converting one to a float raises
      [OverflowError] beyond the range of a double; below that,
      [int(numpy.floor(a / float(b)))] for a positive [b] is the floor
      division [a / b], which is what the program computes up to [2^53].
    - The design vector holds the labels 0 and 1, kept as integers.
    - [itertools.permutations] and [itertools.islice] follow the documented
      behaviour of the Python library: permutations come in lexicographic
      order of positions, [islice] raises [ValueError] on an index that is
      negative or above [sys.maxint] (taken from a 64-bit build).
    - [multiprocessing.cpu_count()] is a parameter of the coordinator.  A
      child process whose worker raises delivers nothing to the queue.
    - The coordinator empties the queue with [while not queue.empty()],
      which gets an item only when it has reached the queue by the time
      the loop polls: [seen] tells, item by item, which ones had.  The
      items are taken in the order of the slices (the order is shown not to
      matter).  The line printed after the parallel phase is left out. *)

From Stdlib Require Import ZArith QArith Qabs List Bool Lia Arith Permutation
  Factorial.
Import ListNotations.

Local Open Scope Z_scope.

(** ** NumPy scalars and arrays *)

Module numpy.

Inductive npfloat : Type :=
| NaN : npfloat
| Fin : Q -> npfloat.

Definition sum (a : list Q) : Q := fold_right Qplus 0%Q a.

(** [numpy.mean]: [nan] on an empty array. *)
Definition mean (a : list Q) : npfloat :=
  match a with
  | [] => NaN
  | _ :: _ => Fin (sum a / inject_Z (Z.of_nat (length a)))
  end.

Definition sub (a b : npfloat) : npfloat :=
  match a, b with
  | Fin p, Fin q => Fin (p - q)
  | _, _ => NaN
  end.

Definition add (a b : npfloat) : npfloat :=
  match a, b with
  | Fin p, Fin q => Fin (p + q)
  | _, _ => NaN
  end.

Definition abs (a : npfloat) : npfloat :=
  match a with
  | Fin p => Fin (Qabs p)
  | NaN => NaN
  end.

(** [a >= b] *)
Definition ge (a b : npfloat) : bool :=
  match a, b with
  | Fin p, Fin q => Qle_bool q p
  | _, _ => false
  end.

(** [a > b] *)
Definition gt (a b : npfloat) : bool :=
  match a, b with
  | Fin p, Fin q => negb (Qle_bool p q)
  | _, _ => false
  end.

(** [a < b] *)
Definition lt (a b : npfloat) : bool := gt b a.

(** [a == v], elementwise, on an array of labels. *)
Definition eq_scalar (a : list Z) (v : Z) : list bool :=
  map (fun e => Z.eqb e v) a.

(** [a[mask]]: the entries of [a] at which the boolean mask is set.  NumPy
    raises [IndexError] when the two lengths differ; the program indexes
    with a mask as long as the array ([obs] and a permutation of [dm]), and
    what is proved of the worker on arbitrary arrays assumes equal
    lengths. *)
Fixpoint getitem_mask (a : list Q) (mask : list bool) : list Q :=
  match a, mask with
  | e :: a', b :: mask' =>
      if b then e :: getitem_mask a' mask' else getitem_mask a' mask'
  | _, _ => []
  end.

Definition zeros (n : nat) : list Z := repeat 0 n.
Definition ones (n : nat) : list Z := repeat 1 n.

End numpy.

(** ** Python integers *)

Module python.

(** [sys.maxint] of a 64-bit build. *)
Definition maxint : Z := 2 ^ 63 - 1.

(** Converting the integer [z] to a float raises [OverflowError]: [z] rounds
    to a magnitude of [2^1024] or more. *)
Definition float_overflows (z : Z) : bool :=
  2 ^ 1024 - 2 ^ 970 <=? Z.abs z.

End python.

(** ** itertools *)

Module itertools.

Section Permutations.
Context {A : Type}.

(** Every way of taking one element out of a list, by position: the
    element and the remaining elements in their order. *)
Fixpoint selects (l : list A) : list (A * list A) :=
  match l with
  | [] => []
  | a :: l' => (a, l') :: map (fun p => (fst p, a :: snd p)) (selects l')
  end.

Fixpoint permutations_aux (n : nat) (pool : list A) : list (list A) :=
  match n with
  | O => [[]]
  | S n' =>
      flat_map (fun p => map (cons (fst p)) (permutations_aux n' (snd p)))
               (selects pool)
  end.

(** [itertools.permutations(pool)]: all orderings of the positions of
    [pool], in lexicographic order of the positions. *)
Definition permutations (pool : list A) : list (list A) :=
  permutations_aux (length pool) pool.

(** [itertools.islice(it, start, stop)]: [None] stands for the
    [ValueError] raised on an index that is negative or above
    [sys.maxint]. *)
Definition islice (it : list A) (start stop : Z) : option (list A) :=
  if (start <? 0) || (stop <? 0) ||
     (python.maxint <? start) || (python.maxint <? stop)
  then None
  else Some (firstn (Z.to_nat (stop - start)) (skipn (Z.to_nat start) it)).
End Permutations.

End itertools.

(** ** helpers.py *)

Module helpers.
Import numpy.

Inductive exn : Type :=
| ValueError : exn
| ZeroDivisionError : exn
| OverflowError : exn.

(** A slice: design matrix, starting index, ending index. *)
Definition permslice : Type := (list Z * Z * Z)%type.

(** A partial result [[maxT, overT]]. *)
Definition partial : Type := (npfloat * Z)%type.

(** The statistic of one permutation of the design matrix. *)
Definition permT (obs : list Q) (permdm : list Z) : npfloat :=
  sub (mean (getitem_mask obs (eq_scalar permdm 0)))
      (mean (getitem_mask obs (eq_scalar permdm 1))).

(** One round of the [while] loop, on the permutation just fetched. *)
Definition loop_body (obs : list Q) (obsT : npfloat) (twotailed : bool)
           (st : partial) (permdm : list Z) : partial :=
  let '(maxT, overT) := st in
  let permT := permT obs permdm in
  let overT :=
    if twotailed then
      if ge (abs permT) (abs obsT) then overT + 1 else overT
    else
      if ge permT obsT then overT + 1 else overT in
  let maxT := if gt permT maxT then add (Fin 0) permT else maxT in
  (maxT, overT).

(** [_run_permutations]: the queue is threaded through; the loop runs until
    the slice of permutations is exhausted. *)
Definition _run_permutations (outqueue : list partial) (ps : permslice)
           (obs : list Q) (obsT : npfloat) (twotailed : bool)
  : exn + list partial :=
  let '(dm, si, ei) := ps in
  match itertools.islice (itertools.permutations dm) si ei with
  | None => inl ValueError
  | Some permutations =>
      inr (outqueue ++
           [fold_left (loop_body obs obsT twotailed) permutations (Fin 0, 0)])
  end.

End helpers.

(** ** permutation.py *)

Module permutation.
Import numpy helpers.

(** The number of processes, from [maxcpu] and the host's CPU count. *)
Definition count_cpus (cpu_count : Z) (maxcpu : option Z) : Z :=
  match maxcpu with
  | Some 1 => 1
  | Some m => if m <? cpu_count then m else cpu_count
  | None => cpu_count
  end.

(** The number of permutations to run. *)
Definition count_perms (Nallperms : Z) (maxperm : option Z) : Z :=
  match maxperm with
  | Some m => if Nallperms >? m then m else Nallperms
  | None => Nallperms
  end.

(** [range(n)] *)
Definition range (n : Z) : list Z := map Z.of_nat (seq 0 (Z.to_nat n)).

(** The slices, one per process. *)
Definition make_slices (dm : list Z) (cpus Nperms Nallperms : Z)
  : list permslice :=
  let slicesize := if cpus >? 1 then Nperms / cpus else Nperms in
  let maxslicesize := if cpus >? 1 then Nallperms / cpus else slicesize in
  let slices :=
    map (fun i =>
           let si := i * slicesize + i * (maxslicesize - slicesize) in
           (dm, si, si + slicesize))
        (range (cpus - 1)) in
  let si :=
    if Nat.eqb (length slices) 0 then 0
    else Z.of_nat (length slices) * slicesize in
  slices ++ [(dm, si, Nperms)].

(** A slice run in a process of its own: a worker that raises leaves the
    queue as it was. *)
Definition run_process (obs : list Q) (obsT : npfloat) (twotailed : bool)
           (queue : list partial) (ps : permslice) : list partial :=
  match _run_permutations queue ps obs obsT twotailed with
  | inr queue' => queue'
  | inl _ => queue
  end.

(** All slices but the last go to processes; the last runs in the caller. *)
Definition run_slices (slices : list permslice) (obs : list Q)
           (obsT : npfloat) (twotailed : bool) : exn + list partial :=
  let queue :=
    fold_left (run_process obs obsT twotailed) (removelast slices) [] in
  _run_permutations queue (last slices ([], 0, 0)) obs obsT twotailed.

(** Emptying the queue. *)
Definition drain_body (st : partial) (item : partial) : partial :=
  let '(maxT, overT) := st in
  let '(mt, ot) := item in
  let overT := overT + ot in
  let maxT := if lt maxT mt then add (Fin 0) mt else maxT in
  (maxT, overT).

Definition drain (queue : list partial) : partial :=
  fold_left drain_body queue (Fin 0, 0).

Definition design (x y : list Q) : list Z :=
  zeros (length x) ++ ones (length y).

Definition observed (x y : list Q) : npfloat :=
  let obs := x ++ y in
  let dm := design x y in
  sub (mean (getitem_mask obs (eq_scalar dm 0)))
      (mean (getitem_mask obs (eq_scalar dm 1))).

Definition factorial (n : nat) : Z := Z.of_nat (fact n).

(** The slices of a call. *)
Definition slices_of (cpu_count : Z) (x y : list Q)
           (maxperm maxcpu : option Z) : list permslice :=
  let dm := design x y in
  let cpus := count_cpus cpu_count maxcpu in
  let Nallperms := factorial (length dm) in
  make_slices dm cpus (count_perms Nallperms maxperm) Nallperms.

(** The queue of a call, once every process has ended. *)
Definition queue_of (cpu_count : Z) (x y : list Q) (twotailed : bool)
           (maxperm maxcpu : option Z) : exn + list partial :=
  run_slices (slices_of cpu_count x y maxperm maxcpu)
             (x ++ y) (observed x y) twotailed.

(** The items the polling loop gets from the queue: those that had reached
    it, as [seen] tells item by item. *)
Fixpoint polled (seen : list bool) (queue : list partial) : list partial :=
  match queue, seen with
  | item :: queue', b :: seen' =>
      if b then item :: polled seen' queue' else polled seen' queue'
  | _, _ => []
  end.

(** [permutation_test]: returns [(obsT, p, Nperms, maxT)].  The two
    conversions [float(cpus)] divide [Nperms] and [Nallperms] when there is
    more than one process; [float(Nperms)] divides [overT] at the end. *)
Definition permutation_test (cpu_count : Z) (seen : list bool) (x y : list Q)
           (twotailed : bool) (maxperm maxcpu : option Z)
  : exn + (npfloat * Q * Z * npfloat) :=
  let obsT := observed x y in
  let cpus := count_cpus cpu_count maxcpu in
  let Nallperms := factorial (length (design x y)) in
  let Nperms := count_perms Nallperms maxperm in
  if (cpus >? 1) &&
     (python.float_overflows Nperms || python.float_overflows Nallperms)
  then inl OverflowError
  else
    match queue_of cpu_count x y twotailed maxperm maxcpu with
    | inl e => inl e
    | inr queue =>
        let '(maxT, overT) := drain (polled seen queue) in
        if python.float_overflows Nperms then inl OverflowError
        else if Nperms =? 0 then inl ZeroDivisionError
        else inr (obsT, (inject_Z overT / inject_Z Nperms)%Q, Nperms, maxT)
    end.

End permutation.

Import numpy python itertools helpers permutation.

(** ** Vocabulary of the specification *)

(** [a >= b] on NumPy scalars, as a proposition. *)
Definition fge (a b : npfloat) : Prop :=
  match a, b with
  | Fin p, Fin q => (q <= p)%Q
  | _, _ => False
  end.

Definition fge_dec (a b : npfloat) : {fge a b} + {~ fge a b}.
Proof.
  destruct a as [|p], b as [|q]; simpl; try (right; tauto).
  destruct (Qlt_le_dec p q) as [H|H]; [right | left; exact H].
  intro H'. exact (Qlt_not_le _ _ H H').
Defined.

(** The exceed rule of the worker contract. *)
Definition exceeds (two_tailed : bool) (stat observed_statistic : npfloat)
  : Prop :=
  if two_tailed then fge (abs stat) (abs observed_statistic)
  else fge stat observed_statistic.

Definition exceeds_dec (two_tailed : bool) (stat observed_statistic : npfloat)
  : {exceeds two_tailed stat observed_statistic} +
    {~ exceeds two_tailed stat observed_statistic}.
Proof.
  unfold exceeds. destruct two_tailed; apply fge_dec.
Defined.

(** The observations that carry the label [v]. *)
Definition labelled (obs : list Q) (labels : list Z) (v : Z) : list Q :=
  map fst (filter (fun ol => Z.eqb (snd ol) v) (combine obs labels)).

(** Mean of the observations labelled 0 minus mean of those labelled 1. *)
Definition statistic (obs : list Q) (labels : list Z) : npfloat :=
  sub (mean (labelled obs labels 0)) (mean (labelled obs labels 1)).

(** How many of the permutations meet the exceed rule. *)
Definition exceed_count (two_tailed : bool) (obs : list Q)
           (observed_statistic : npfloat) (perms : list (list Z)) : Z :=
  Z.of_nat
    (length
       (filter (fun labels =>
                  if exceeds_dec two_tailed (statistic obs labels)
                                 observed_statistic
                  then true else false)
               perms)).

(** The loop of the worker, from its starting values. *)
Definition run_loop (obs : list Q) (obsT : npfloat) (twotailed : bool)
           (perms : list (list Z)) : partial :=
  fold_left (loop_body obs obsT twotailed) perms (Fin 0, 0).

(** The permutations a slice stands for. *)
Definition slice_perms (ps : permslice) : option (list (list Z)) :=
  let '(dm, si, ei) := ps in islice (permutations dm) si ei.

(** The runs of the slices whose enumeration could be set up. *)
Definition slice_runs (slices : list permslice) : list (list (list Z)) :=
  flat_map (fun ps => match slice_perms ps with
                      | Some perms => [perms]
                      | None => []
                      end) slices.

(** Every permutation evaluated for a list of slices. *)
Definition evaluated (slices : list permslice) : list (list Z) :=
  concat (slice_runs slices).

(** [m] is [max(0, max stats)]: it is 0 or one of the statistics, it is not
    below 0 and no statistic is above it. *)
Definition floor_max (m : npfloat) (stats : list npfloat) : Prop :=
  exists q, m = Fin q /\ (0 <= q)%Q /\
            (forall s, In (Fin s) stats -> (s <= q)%Q) /\
            (m = Fin 0 \/ In m stats).

(** The update of a running maximum, in the worker and in the coordinator. *)
Definition upd (m t : npfloat) : npfloat :=
  if gt t m then add (Fin 0) t else m.

(** The arithmetic mean of a non-empty sample. *)
Definition average (a : list Q) : Q :=
  (sum a / inject_Z (Z.of_nat (length a)))%Q.

(** The total exceed-count of a call: [overT] once the queue is empty. *)
Definition total_overT (cpu_count : Z) (x y : list Q) (twotailed : bool)
           (maxperm maxcpu : option Z) : exn + Z :=
  match queue_of cpu_count x y twotailed maxperm maxcpu with
  | inl e => inl e
  | inr queue => inr (snd (drain queue))
  end.

(** The sizes the coordinator computes for its slices. *)
Definition slicesize (cpus Nperms : Z) : Z :=
  if cpus >? 1 then Nperms / cpus else Nperms.

Definition maxslicesize (cpus Nperms Nallperms : Z) : Z :=
  if cpus >? 1 then Nallperms / cpus else slicesize cpus Nperms.

(** The index ranges [(start, end)] of a list of slices. *)
Definition ranges (slices : list permslice) : list (Z * Z) :=
  map (fun ps => (snd (fst ps), snd ps)) slices.

Definition in_range (k : Z) (r : Z * Z) : Prop := fst r <= k < snd r.

(** No index lies in two ranges of the list. *)
Definition pairwise_disjoint (rs : list (Z * Z)) : Prop :=
  forall i j ri rj k,
    nth_error rs i = Some ri -> nth_error rs j = Some rj -> i <> j ->
    in_range k ri -> in_range k rj -> False.

(** The ranges of the list together make up [[0, n)]. *)
Definition union_is (rs : list (Z * Z)) (n : Z) : Prop :=
  forall k, (exists r, In r rs /\ in_range k r) <-> 0 <= k < n.

(** The cap, when there is one, is a positive integer. *)
Definition valid_cap (maxperm : option Z) : Prop :=
  match maxperm with
  | Some m => 0 < m
  | None => True
  end.

(** The cap does not cut the permutation space of [n] observations. *)
Definition uncapped (n : nat) (maxperm : option Z) : Prop :=
  match maxperm with
  | Some m => factorial n <= m
  | None => True
  end.

(** [k] slices of size [s] laid end to end from 0, and a last slice from
    [k * s] to [n]. *)
Definition chunks (dm : list Z) (k : nat) (s n : Z) : list permslice :=
  map (fun i => (dm, i * s, i * s + s)) (map Z.of_nat (seq 0 k)) ++
  [(dm, Z.of_nat k * s, n)].

(** The worker contract, written over the rationals: a statistic is a
    number or undefined (a group without observations). *)
Fixpoint total (a : list Q) : Q :=
  match a with
  | [] => 0%Q
  | q :: a' => (q + total a')%Q
  end.

Definition mean_of (a : list Q) : option Q :=
  match a with
  | [] => None
  | _ :: _ => Some (total a / inject_Z (Z.of_nat (length a)))%Q
  end.

(** Mean of the observations labelled 0 minus mean of those labelled 1. *)
Definition stat_of (obs : list Q) (labels : list Z) : option Q :=
  match mean_of (labelled obs labels 0), mean_of (labelled obs labels 1) with
  | Some a, Some b => Some (a - b)%Q
  | _, _ => None
  end.

(** [abs(stat) >= abs(observed_statistic)] if two-tailed,
    [stat >= observed_statistic] otherwise; never met by an undefined
    value. *)
Definition meets_rule (two_tailed : bool) (stat observed_statistic : option Q)
  : Prop :=
  match stat, observed_statistic with
  | Some s, Some o =>
      if two_tailed then (Qabs o <= Qabs s)%Q else (o <= s)%Q
  | _, _ => False
  end.

Definition meets_rule_dec (two_tailed : bool) (stat o : option Q)
  : {meets_rule two_tailed stat o} + {~ meets_rule two_tailed stat o}.
Proof.
  destruct stat as [s|], o as [o|]; simpl; try (right; tauto).
  destruct two_tailed.
  - destruct (Qlt_le_dec (Qabs s) (Qabs o)) as [H|H]; [right | left; exact H].
    intro H'. exact (Qlt_not_le _ _ H H').
  - destruct (Qlt_le_dec s o) as [H|H]; [right | left; exact H].
    intro H'. exact (Qlt_not_le _ _ H H').
Defined.

(** How many of the permutations meet the rule. *)
Definition count_meeting (two_tailed : bool) (obs : list Q) (o : option Q)
           (perms : list (list Z)) : Z :=
  Z.of_nat
    (length
       (filter (fun labels =>
                  if meets_rule_dec two_tailed (stat_of obs labels) o
                  then true else false)
               perms)).

(** The number a NumPy scalar stands for, if any. *)
Definition value (f : npfloat) : option Q :=
  match f with
  | Fin q => Some q
  | NaN => None
  end.

(** The sizes at which the program's float divisions are exact and every
    index fits [islice]: at most [2^53] permutations in all. *)
Definition exact_range (n : nat) : Prop := factorial n <= 2 ^ 53.

(** The polling loop gets each of the first [n] items of the queue. *)
Definition seen_all (n : nat) (seen : list bool) : Prop :=
  firstn n seen = repeat true n.

(** The factorial, computed on binary integers. *)
Fixpoint zfact (n : nat) : Z :=
  match n with
  | O => 1
  | S n' => Z.of_nat n * zfact n'
  end.

(** ** The worker *)

Lemma ge_fge (a b : npfloat) : ge a b = true <-> fge a b.
Proof.
  destruct a as [|p], b as [|q]; simpl; try (split; [discriminate | tauto]).
  apply Qle_bool_iff.
Qed.

Lemma getitem_mask_labelled (obs : list Q) (labels : list Z) (v : Z) :
  getitem_mask obs (eq_scalar labels v) = labelled obs labels v.
Proof.
  unfold labelled, eq_scalar.
  revert labels; induction obs as [|o obs IH]; intros [|l labels]; simpl; auto.
  destruct (Z.eqb l v); simpl; rewrite IH; reflexivity.
Qed.

Lemma permT_statistic (obs : list Q) (permdm : list Z) :
  permT obs permdm = statistic obs permdm.
Proof.
  unfold permT, statistic. now rewrite !getitem_mask_labelled.
Qed.

Lemma loop_body_overT (obs : list Q) (obsT : npfloat) (tw : bool)
      (st : partial) (permdm : list Z) :
  snd (loop_body obs obsT tw st permdm) =
  snd st + (if exceeds_dec tw (statistic obs permdm) obsT then 1 else 0).
Proof.
  destruct st as [m c]. unfold loop_body. rewrite permT_statistic. simpl.
  destruct (exceeds_dec tw (statistic obs permdm) obsT) as [E|E];
    unfold exceeds in E; destruct tw.
  - apply ge_fge in E. rewrite E. reflexivity.
  - apply ge_fge in E. rewrite E. reflexivity.
  - destruct (ge (abs (statistic obs permdm)) (abs obsT)) eqn:G.
    + apply ge_fge in G. contradiction.
    + lia.
  - destruct (ge (statistic obs permdm) obsT) eqn:G.
    + apply ge_fge in G. contradiction.
    + lia.
Qed.

Lemma fold_loop_overT (obs : list Q) (obsT : npfloat) (tw : bool)
      (perms : list (list Z)) (st : partial) :
  snd (fold_left (loop_body obs obsT tw) perms st) =
  snd st + exceed_count tw obs obsT perms.
Proof.
  unfold exceed_count. revert st.
  induction perms as [|p perms IH]; intros st; simpl.
  - lia.
  - rewrite IH, loop_body_overT.
    destruct (exceeds_dec tw (statistic obs p) obsT); simpl length; lia.
Qed.

Lemma run_loop_overT (obs : list Q) (obsT : npfloat) (tw : bool)
      (perms : list (list Z)) :
  snd (run_loop obs obsT tw perms) = exceed_count tw obs obsT perms.
Proof. unfold run_loop. rewrite fold_loop_overT. simpl. lia. Qed.

Lemma run_permutations_eq (queue : list partial) (ps : permslice)
      (obs : list Q) (obsT : npfloat) (tw : bool) :
  _run_permutations queue ps obs obsT tw =
  match slice_perms ps with
  | None => inl ValueError
  | Some perms => inr (queue ++ [run_loop obs obsT tw perms])
  end.
Proof. destruct ps as [[dm si] ei]. reflexivity. Qed.

(** ** Running maxima *)

Lemma Qplus_0_l_eq (q : Q) : (0 + q)%Q = q.
Proof.
  destruct q as [n d]. unfold Qplus. simpl. now rewrite Z.mul_1_r.
Qed.

Lemma add_Fin0 (t : npfloat) : add (Fin 0) t = t.
Proof. destruct t; simpl; [reflexivity | now rewrite Qplus_0_l_eq]. Qed.

Lemma gt_iff (t m : Q) : gt (Fin t) (Fin m) = true <-> (m < t)%Q.
Proof.
  simpl. rewrite negb_true_iff. split; intro H.
  - apply Qnot_le_lt. intro L. apply Qle_bool_iff in L. congruence.
  - destruct (Qle_bool t m) eqn:E; [|reflexivity].
    apply Qle_bool_iff in E. exfalso. exact (Qlt_not_le _ _ H E).
Qed.

Lemma gt_false_iff (t m : Q) : gt (Fin t) (Fin m) = false <-> (t <= m)%Q.
Proof.
  simpl. rewrite negb_false_iff. apply Qle_bool_iff.
Qed.

Lemma upd_NaN (m : npfloat) : upd m NaN = m.
Proof. reflexivity. Qed.

Lemma upd_above (m t : Q) : (m < t)%Q -> upd (Fin m) (Fin t) = Fin t.
Proof.
  intro H. unfold upd. apply gt_iff in H. rewrite H. apply add_Fin0.
Qed.

Lemma upd_below (m t : Q) : (t <= m)%Q -> upd (Fin m) (Fin t) = Fin m.
Proof.
  intro H. unfold upd. apply gt_false_iff in H. now rewrite H.
Qed.

Lemma fold_upd_spec (ts : list npfloat) :
  forall q0, exists q,
    fold_left upd ts (Fin q0) = Fin q /\ (q0 <= q)%Q /\
    (forall s, In (Fin s) ts -> (s <= q)%Q) /\
    (Fin q = Fin q0 \/ In (Fin q) ts).
Proof.
  induction ts as [|t ts IH]; intros q0; simpl.
  - exists q0. repeat split; auto using Qle_refl. intros s [].
  - destruct t as [|s].
    + rewrite upd_NaN. destruct (IH q0) as (q & E & L & U & M).
      exists q. repeat split; auto.
      * intros s [H|H]; [discriminate | auto].
      * destruct M; auto.
    + destruct (Qlt_le_dec q0 s) as [H|H].
      * rewrite (upd_above _ _ H). destruct (IH s) as (q & E & L & U & M).
        exists q. repeat split; auto.
        -- apply Qle_trans with s; auto using Qlt_le_weak.
        -- intros s' [H'|H']; [injection H' as <-; exact L | auto].
        -- destruct M as [M|M]; [rewrite M|]; auto.
      * rewrite (upd_below _ _ H). destruct (IH q0) as (q & E & L & U & M).
        exists q. repeat split; auto.
        -- intros s' [H'|H']; [injection H' as <- | auto].
           apply Qle_trans with q0; auto.
        -- destruct M; auto.
Qed.

Lemma fold_upd_merge (ts : list npfloat) :
  forall q0 q1, (q0 <= q1)%Q ->
    fold_left upd ts (Fin q1) = upd (Fin q1) (fold_left upd ts (Fin q0)).
Proof.
  induction ts as [|t ts IH]; intros q0 q1 L; simpl.
  - now rewrite upd_below.
  - destruct t as [|s].
    + rewrite !upd_NaN. now apply IH.
    + destruct (Qlt_le_dec q1 s) as [H|H].
      * rewrite (upd_above _ _ H).
        rewrite (upd_above q0 s) by (apply Qle_lt_trans with q1; auto).
        destruct (fold_upd_spec ts s) as (q & E & Lq & _).
        rewrite E. symmetry. apply upd_above.
        apply Qlt_le_trans with s; auto.
      * rewrite (upd_below _ _ H).
        destruct (Qlt_le_dec q0 s) as [H0|H0].
        -- rewrite (upd_above _ _ H0). now apply IH.
        -- rewrite (upd_below _ _ H0). now apply IH.
Qed.

Lemma fold_upd_concat (ls : list (list npfloat)) :
  forall m, (0 <= m)%Q ->
    fold_left upd (map (fun l => fold_left upd l (Fin 0)) ls) (Fin m) =
    fold_left upd (concat ls) (Fin m).
Proof.
  induction ls as [|l ls IH]; intros m Hm; simpl; [reflexivity|].
  rewrite fold_left_app, <- (fold_upd_merge l 0 m Hm).
  destruct (fold_upd_spec l m) as (q & E & L & _). rewrite E.
  apply IH. apply Qle_trans with m; auto.
Qed.

Lemma fold_loop_maxT (obs : list Q) (obsT : npfloat) (tw : bool)
      (perms : list (list Z)) (st : partial) :
  fst (fold_left (loop_body obs obsT tw) perms st) =
  fold_left upd (map (permT obs) perms) (fst st).
Proof.
  revert st. induction perms as [|p perms IH]; intros st; simpl; auto.
  rewrite IH. f_equal. now destruct st.
Qed.

Lemma fold_drain_maxT (queue : list partial) (st : partial) :
  fst (fold_left drain_body queue st) = fold_left upd (map fst queue) (fst st).
Proof.
  revert st. induction queue as [|[mt ot] queue IH]; intros st; simpl; auto.
  rewrite IH. f_equal. now destruct st.
Qed.

Lemma fold_drain_overT (queue : list partial) (st : partial) :
  snd (fold_left drain_body queue st) =
  snd st + fold_right Z.add 0 (map snd queue).
Proof.
  revert st. induction queue as [|[mt ot] queue IH]; intros st; simpl.
  - lia.
  - rewrite IH. destruct st. simpl. lia.
Qed.

Lemma sum_permutation (l l' : list Z) :
  Permutation l l' -> fold_right Z.add 0 l = fold_right Z.add 0 l'.
Proof.
  induction 1; simpl; lia.
Qed.

(** ** The queue of a call *)

Lemma fold_run_process (obs : list Q) (obsT : npfloat) (tw : bool)
      (slices : list permslice) (queue : list partial) :
  fold_left (run_process obs obsT tw) slices queue =
  queue ++ map (run_loop obs obsT tw) (slice_runs slices).
Proof.
  revert queue. induction slices as [|ps slices IH]; intros queue; simpl.
  - now rewrite app_nil_r.
  - rewrite IH. unfold run_process. rewrite run_permutations_eq.
    destruct (slice_perms ps) as [perms|]; simpl; [|reflexivity].
    now rewrite <- app_assoc.
Qed.

Lemma slice_runs_app (s1 s2 : list permslice) :
  slice_runs (s1 ++ s2) = slice_runs s1 ++ slice_runs s2.
Proof. unfold slice_runs. apply flat_map_app. Qed.

Lemma run_slices_eq (slices : list permslice) (ps : permslice)
      (obs : list Q) (obsT : npfloat) (tw : bool) :
  run_slices (slices ++ [ps]) obs obsT tw =
  match slice_perms ps with
  | None => inl ValueError
  | Some _ => inr (map (run_loop obs obsT tw) (slice_runs (slices ++ [ps])))
  end.
Proof.
  unfold run_slices. rewrite removelast_last, last_last.
  rewrite run_permutations_eq, fold_run_process, slice_runs_app. simpl.
  destruct (slice_perms ps) as [perms|]; [|reflexivity].
  now rewrite map_app.
Qed.

Lemma exceed_count_app (tw : bool) (obs : list Q) (obsT : npfloat)
      (l1 l2 : list (list Z)) :
  exceed_count tw obs obsT (l1 ++ l2) =
  exceed_count tw obs obsT l1 + exceed_count tw obs obsT l2.
Proof.
  unfold exceed_count. rewrite filter_app, length_app. lia.
Qed.

Lemma exceed_count_concat (tw : bool) (obs : list Q) (obsT : npfloat)
      (runs : list (list (list Z))) :
  fold_right Z.add 0 (map (exceed_count tw obs obsT) runs) =
  exceed_count tw obs obsT (concat runs).
Proof.
  induction runs as [|l runs IH]; simpl; [reflexivity|].
  now rewrite exceed_count_app, IH.
Qed.

Lemma run_loop_maxT (obs : list Q) (obsT : npfloat) (tw : bool)
      (perms : list (list Z)) :
  fst (run_loop obs obsT tw perms) =
  fold_left upd (map (permT obs) perms) (Fin 0).
Proof. unfold run_loop. now rewrite fold_loop_maxT. Qed.

(** Emptying the queue gives what one worker would report for all the
    evaluated permutations in a row. *)
Lemma drain_run_loops (obs : list Q) (obsT : npfloat) (tw : bool)
      (runs : list (list (list Z))) :
  drain (map (run_loop obs obsT tw) runs) =
  run_loop obs obsT tw (concat runs).
Proof.
  unfold drain. apply injective_projections.
  - rewrite fold_drain_maxT, run_loop_maxT, map_map. simpl.
    rewrite (map_ext _ (fun l => fold_left upd (map (permT obs) l) (Fin 0)))
      by (intro; apply run_loop_maxT).
    rewrite <- (map_map (map (permT obs))
                        (fun l => fold_left upd l (Fin 0))).
    rewrite fold_upd_concat by apply Qle_refl.
    now rewrite concat_map.
  - rewrite fold_drain_overT, run_loop_overT, map_map. simpl.
    rewrite (map_ext _ (exceed_count tw obs obsT))
      by (intro; apply run_loop_overT).
    apply exceed_count_concat.
Qed.

Lemma make_slices_last (dm : list Z) (cpus Nperms Nallperms : Z) :
  exists firsts si,
    make_slices dm cpus Nperms Nallperms = firsts ++ [(dm, si, Nperms)].
Proof. unfold make_slices. eauto. Qed.

(** What a call returns, in terms of the slices it runs and the items it
    gets from the queue. *)
Lemma permutation_test_eq (cpu_count : Z) (seen : list bool) (x y : list Q)
      (tw : bool) (maxperm maxcpu : option Z) :
  let slices := slices_of cpu_count x y maxperm maxcpu in
  let Nallperms := factorial (length (design x y)) in
  let Nperms := count_perms Nallperms maxperm in
  let r := drain (polled seen
                    (map (run_loop (x ++ y) (observed x y) tw)
                         (slice_runs slices))) in
  permutation_test cpu_count seen x y tw maxperm maxcpu =
  if (count_cpus cpu_count maxcpu >? 1) &&
     (float_overflows Nperms || float_overflows Nallperms)
  then inl OverflowError
  else
    match slice_perms (last slices ([], 0, 0)) with
    | None => inl ValueError
    | Some _ =>
        if float_overflows Nperms then inl OverflowError
        else if Nperms =? 0 then inl ZeroDivisionError
        else inr (observed x y, (inject_Z (snd r) / inject_Z Nperms)%Q,
                  Nperms, fst r)
    end.
Proof.
  intros slices Nallperms Nperms r. unfold permutation_test, queue_of.
  fold Nallperms. fold Nperms. fold slices.
  destruct (_ && _); [reflexivity|]. subst r.
  unfold slices, slices_of. fold Nallperms. fold Nperms.
  destruct (make_slices_last (design x y) (count_cpus cpu_count maxcpu)
              Nperms Nallperms) as (firsts & si & E).
  rewrite E, run_slices_eq, last_last.
  destruct (slice_perms (design x y, si, _)); [|reflexivity].
  now destruct (drain _).
Qed.

(** ** The floor of the maximum *)

Lemma fold_upd_negative (ts : list npfloat) :
  (forall t, In t ts -> exists s, t = Fin s /\ (s < 0)%Q) ->
  fold_left upd ts (Fin 0) = Fin 0.
Proof.
  induction ts as [|t ts IH]; intros H; simpl; [reflexivity|].
  destruct (H t (or_introl eq_refl)) as (s & -> & L).
  rewrite upd_below by now apply Qlt_le_weak.
  apply IH. intros t' Ht'. apply H. now right.
Qed.

(** ** The observed statistic *)

Lemma getitem_mask_zeros (x y : list Q) :
  getitem_mask (x ++ y) (eq_scalar (design x y) 0) = x.
Proof.
  unfold design, zeros, ones, eq_scalar.
  induction x as [|a x IH]; simpl.
  - induction y as [|b y IH]; simpl; auto.
  - now rewrite IH.
Qed.

Lemma getitem_mask_ones (x y : list Q) :
  getitem_mask (x ++ y) (eq_scalar (design x y) 1) = y.
Proof.
  unfold design, zeros, ones, eq_scalar.
  induction x as [|a x IH]; simpl.
  - induction y as [|b y IH]; simpl; auto. now rewrite IH.
  - exact IH.
Qed.

Lemma observed_means (x y : list Q) : observed x y = sub (mean x) (mean y).
Proof.
  unfold observed. now rewrite getitem_mask_zeros, getitem_mask_ones.
Qed.

Lemma observed_identity (x y : list Q) :
  observed x y = statistic (x ++ y) (design x y).
Proof. unfold observed. now rewrite <- permT_statistic. Qed.

Lemma mean_average (a : list Q) : a <> [] -> mean a = Fin (average a).
Proof. destruct a; [congruence | reflexivity]. Qed.

Lemma permutation_test_T (cpu_count : Z) (seen : list bool) (x y : list Q)
      (tw : bool) (maxperm maxcpu : option Z) T p Nperms Tmax :
  permutation_test cpu_count seen x y tw maxperm maxcpu =
  inr (T, p, Nperms, Tmax) ->
  T = observed x y /\
  Nperms = count_perms (factorial (length (design x y))) maxperm.
Proof.
  rewrite permutation_test_eq.
  destruct (_ && _); [discriminate|].
  destruct (slice_perms _); [|discriminate].
  destruct (float_overflows _); [discriminate|].
  destruct (_ =? 0); [discriminate|].
  intros E. injection E as <- _ <- _. auto.
Qed.

(** C9.  For non-empty [x] and [y] the observed statistic a call returns is
    [mean(x) - mean(y)]; for [x = [1,2,3]], [y = [4,5,6]] it is -3. *)
Theorem observed_statistic_is_difference_of_means
        (cpu_count : Z) (seen : list bool) (x y : list Q) (tw : bool)
        (maxperm maxcpu : option Z) T p Nperms Tmax :
  x <> [] -> y <> [] ->
  permutation_test cpu_count seen x y tw maxperm maxcpu =
  inr (T, p, Nperms, Tmax) ->
  T = Fin (average x - average y) /\
  exists t, observed [1; 2; 3]%Q [4; 5; 6]%Q = Fin t /\ (t == -3)%Q.
Proof.
  intros Hx Hy E. split.
  - apply permutation_test_T in E. destruct E as [-> _].
    now rewrite observed_means, (mean_average x), (mean_average y).
  - exists (-27 # 9)%Q. split; reflexivity.
Qed.

Lemma observed_statistic_is_difference_of_means_witness :
  Fin (-27 # 9) =
  Fin (average [1; 2; 3]%Q - average [4; 5; 6]%Q) /\
  exists t, observed [1; 2; 3]%Q [4; 5; 6]%Q = Fin t /\ (t == -3)%Q.
Proof.
  apply (observed_statistic_is_difference_of_means
           2 [true; true] [1; 2; 3]%Q [4; 5; 6]%Q true (Some 10) (Some 2)
           (Fin (-27 # 9)) (6 # 10)%Q 10 (Fin 0)).
  - discriminate.
  - discriminate.
  - vm_compute. reflexivity.
Defined.

(** ** The two tail rules *)

Lemma exceeds_one_two (stat : npfloat) (q : Q) :
  (0 <= q)%Q -> exceeds false stat (Fin q) -> exceeds true stat (Fin q).
Proof.
  intros Hq. unfold exceeds. destruct stat as [|t]; simpl; auto.
  intros H. rewrite (Qabs_pos q Hq).
  apply Qle_trans with t; auto using Qle_Qabs.
Qed.

Lemma exceed_count_cons (tw : bool) (obs : list Q) (obsT : npfloat)
      (p : list Z) (perms : list (list Z)) :
  exceed_count tw obs obsT (p :: perms) =
  (if exceeds_dec tw (statistic obs p) obsT then 1 else 0) +
  exceed_count tw obs obsT perms.
Proof.
  unfold exceed_count. cbn [filter].
  destruct (exceeds_dec tw (statistic obs p) obsT); cbn [length]; lia.
Qed.

Lemma exceed_count_one_two (obs : list Q) (q : Q) (perms : list (list Z)) :
  (0 <= q)%Q ->
  exceed_count false obs (Fin q) perms <= exceed_count true obs (Fin q) perms.
Proof.
  intros Hq. induction perms as [|p perms IH]; [reflexivity|].
  rewrite !exceed_count_cons.
  destruct (exceeds_dec false (statistic obs p) (Fin q)) as [E|E].
  - apply (exceeds_one_two _ _ Hq) in E.
    destruct (exceeds_dec true (statistic obs p) (Fin q)); [lia|contradiction].
  - destruct (exceeds_dec true (statistic obs p) (Fin q)); lia.
Qed.

Lemma queue_of_eq (cpu_count : Z) (x y : list Q) (tw : bool)
      (maxperm maxcpu : option Z) :
  let slices := slices_of cpu_count x y maxperm maxcpu in
  queue_of cpu_count x y tw maxperm maxcpu =
  match slice_perms (last slices ([], 0, 0)) with
  | None => inl ValueError
  | Some _ =>
      inr (map (run_loop (x ++ y) (observed x y) tw) (slice_runs slices))
  end.
Proof.
  intros slices. unfold queue_of. fold slices. unfold slices, slices_of.
  destruct (make_slices_last (design x y) (count_cpus cpu_count maxcpu)
              (count_perms (factorial (length (design x y))) maxperm)
              (factorial (length (design x y)))) as (firsts & si & E).
  now rewrite E, run_slices_eq, last_last.
Qed.

Lemma total_overT_eq (cpu_count : Z) (x y : list Q) (tw : bool)
      (maxperm maxcpu : option Z) :
  let slices := slices_of cpu_count x y maxperm maxcpu in
  total_overT cpu_count x y tw maxperm maxcpu =
  match slice_perms (last slices ([], 0, 0)) with
  | None => inl ValueError
  | Some _ => inr (exceed_count tw (x ++ y) (observed x y) (evaluated slices))
  end.
Proof.
  intros slices. unfold total_overT. rewrite queue_of_eq. fold slices.
  destruct (slice_perms _); [|reflexivity].
  now rewrite drain_run_loops, run_loop_overT.
Qed.

(** C8, as the code has it.  When the observed statistic is not negative,
    the exceed-count of the two-tailed rule is at least that of the
    one-tailed rule, for the worker on every list of permutations and for
    the total of a call. *)
Theorem two_tailed_count_ge_one_tailed
        (cpu_count : Z) (x y : list Q) (maxperm maxcpu : option Z)
        (q : Q) (c1 c2 : Z) :
  observed x y = Fin q -> (0 <= q)%Q ->
  total_overT cpu_count x y false maxperm maxcpu = inr c1 ->
  total_overT cpu_count x y true maxperm maxcpu = inr c2 ->
  c1 <= c2 /\
  forall obs perms,
    snd (run_loop obs (Fin q) false perms) <=
    snd (run_loop obs (Fin q) true perms).
Proof.
  intros Eq Hq E1 E2. split.
  - rewrite total_overT_eq in E1, E2.
    destruct (slice_perms _); [|discriminate].
    injection E1 as <-. injection E2 as <-. rewrite Eq.
    now apply exceed_count_one_two.
  - intros obs perms. rewrite !run_loop_overT.
    now apply exceed_count_one_two.
Qed.



Lemma two_tailed_count_ge_one_tailed_witness :
  2 <= 4 /\
  forall obs perms,
    snd (run_loop obs (Fin (3 # 2)) false perms) <=
    snd (run_loop obs (Fin (3 # 2)) true perms).
Proof.
  apply (two_tailed_count_ge_one_tailed
           1 [2%Q; 3%Q] [1%Q] None None (3 # 2)%Q 2 4).
  - reflexivity.
  - vm_compute. discriminate.
  - reflexivity.
  - reflexivity.
Defined.

(** C8 as stated fails when the observed statistic is negative: for
    [x = [1]], [y = [2,3]] (observed statistic -3/2) all six permutations
    meet the one-tailed rule and only four the two-tailed one. *)
Lemma two_tailed_count_below_one_tailed :
  observed [1%Q] [2%Q; 3%Q] = Fin (-3 # 2) /\
  total_overT 1 [1%Q] [2%Q; 3%Q] false None None = inr 6 /\
  total_overT 1 [1%Q] [2%Q; 3%Q] true None None = inr 4 /\
  ~ (6 <= 4).
Proof.
  repeat split; try reflexivity. lia.
Qed.

(** ** The slices *)

Lemma make_slices_eq (dm : list Z) (cpus Nperms Nallperms : Z) :
  make_slices dm cpus Nperms Nallperms =
  map (fun i => (dm, i * maxslicesize cpus Nperms Nallperms,
                 i * maxslicesize cpus Nperms Nallperms +
                 slicesize cpus Nperms))
      (range (cpus - 1)) ++
  [(dm, Z.of_nat (Z.to_nat (cpus - 1)) * slicesize cpus Nperms, Nperms)].
Proof.
  unfold make_slices. fold (slicesize cpus Nperms).
  fold (maxslicesize cpus Nperms Nallperms).
  f_equal.
  - apply map_ext. intros i.
    replace (i * slicesize cpus Nperms +
             i * (maxslicesize cpus Nperms Nallperms - slicesize cpus Nperms))
      with (i * maxslicesize cpus Nperms Nallperms) by ring.
    reflexivity.
  - unfold range. rewrite !length_map, length_seq.
    destruct (Z.to_nat (cpus - 1)); simpl; reflexivity.
Qed.

Lemma slicesize_nonneg (cpus Nperms : Z) :
  0 <= Nperms -> 0 <= slicesize cpus Nperms.
Proof.
  intros H. unfold slicesize. destruct (cpus >? 1) eqn:E; [|exact H].
  apply Z.div_pos; lia.
Qed.

Lemma maxslicesize_nonneg (cpus Nperms Nallperms : Z) :
  0 <= Nperms -> 0 <= Nallperms -> 0 <= maxslicesize cpus Nperms Nallperms.
Proof.
  intros H H'. unfold maxslicesize. destruct (cpus >? 1) eqn:E.
  - apply Z.div_pos; lia.
  - now apply slicesize_nonneg.
Qed.

Lemma firsts_fit (cpus Nperms : Z) :
  0 <= Nperms ->
  Z.of_nat (Z.to_nat (cpus - 1)) * slicesize cpus Nperms <= Nperms.
Proof.
  intros H. unfold slicesize. destruct (cpus >? 1) eqn:E.
  - rewrite Z2Nat.id by lia.
    assert (0 <= Nperms / cpus) by (apply Z.div_pos; lia).
    assert (cpus * (Nperms / cpus) <= Nperms) by (apply Z.mul_div_le; lia).
    nia.
  - replace (Z.to_nat (cpus - 1)) with 0%nat by lia. simpl. lia.
Qed.

Lemma slice_perms_some (dm : list Z) (si ei : Z) :
  0 <= si <= maxint -> 0 <= ei <= maxint ->
  slice_perms (dm, si, ei) =
  Some (firstn (Z.to_nat (ei - si)) (skipn (Z.to_nat si) (permutations dm))).
Proof.
  intros H1 H2. unfold slice_perms, islice.
  destruct (si <? 0) eqn:E1; [lia|]. destruct (ei <? 0) eqn:E2; [lia|].
  destruct (maxint <? si) eqn:E3; [lia|].
  destruct (maxint <? ei) eqn:E4; [lia|].
  reflexivity.
Qed.

Lemma slice_perms_none (dm : list Z) (si ei : Z) :
  ei < 0 -> slice_perms (dm, si, ei) = None.
Proof.
  intros H. unfold slice_perms, islice.
  destruct (ei <? 0) eqn:E; [|lia].
  now rewrite orb_true_r.
Qed.

Lemma last_slice (cpu_count : Z) (x y : list Q) (maxperm maxcpu : option Z) :
  exists si,
    last (slices_of cpu_count x y maxperm maxcpu) ([], 0, 0) =
    (design x y, si,
     count_perms (factorial (length (design x y))) maxperm) /\
    (0 <= count_perms (factorial (length (design x y))) maxperm -> 0 <= si).
Proof.
  unfold slices_of. rewrite make_slices_eq, last_last.
  eexists. split; [reflexivity|].
  intros H. apply Z.mul_nonneg_nonneg; [lia | now apply slicesize_nonneg].
Qed.

Lemma factorial_pos (n : nat) : 0 < factorial n.
Proof. unfold factorial. pose proof (lt_O_fact n). lia. Qed.

Lemma count_perms_pos (n : nat) (maxperm : option Z) :
  valid_cap maxperm -> 0 < count_perms (factorial n) maxperm.
Proof.
  pose proof (factorial_pos n) as F.
  destruct maxperm as [m|]; simpl; intros H; [|exact F].
  destruct (factorial n >? m); lia.
Qed.

Lemma count_perms_min (n : nat) (m : Z) :
  count_perms (factorial n) (Some m) = Z.min (factorial n) m.
Proof.
  simpl. destruct (factorial n >? m) eqn:E; lia.
Qed.

Lemma design_length (x y : list Q) :
  length (design x y) = (length x + length y)%nat.
Proof.
  unfold design, zeros, ones. now rewrite length_app, !repeat_length.
Qed.

(** ** How many permutations a call evaluates *)

Lemma evaluated_cons (ps : permslice) (slices : list permslice) :
  evaluated (ps :: slices) =
  match slice_perms ps with Some perms => perms | None => [] end ++
  evaluated slices.
Proof.
  unfold evaluated, slice_runs. simpl.
  destruct (slice_perms ps); simpl; now rewrite ?concat_app.
Qed.

Lemma evaluated_app (s1 s2 : list permslice) :
  evaluated (s1 ++ s2) = evaluated s1 ++ evaluated s2.
Proof. unfold evaluated. now rewrite slice_runs_app, concat_app. Qed.

Lemma slice_perms_length (dm : list Z) (si ei : Z) :
  Z.of_nat (length (match slice_perms (dm, si, ei) with
                    | Some perms => perms
                    | None => []
                    end)) <= Z.max 0 (ei - si).
Proof.
  unfold slice_perms, islice.
  match goal with
  | |- context [if ?c then None else _] => destruct c
  end; simpl; [lia|].
  pose proof (firstn_le_length (Z.to_nat (ei - si))
                (skipn (Z.to_nat si) (permutations dm))).
  lia.
Qed.

Lemma evaluated_firsts_length (dm : list Z) (m s : Z) (l : list Z) :
  0 <= s ->
  Z.of_nat (length (evaluated (map (fun i => (dm, i * m, i * m + s)) l))) <=
  Z.of_nat (length l) * s.
Proof.
  intros Hs. induction l as [|i l IH]; [simpl; lia|].
  cbn [map]. rewrite evaluated_cons, length_app, Nat2Z.inj_add.
  pose proof (slice_perms_length dm (i * m) (i * m + s)).
  cbn [length]. rewrite Nat2Z.inj_succ. lia.
Qed.

Lemma evaluated_length (dm : list Z) (cpus Nperms Nallperms : Z) :
  0 <= Nperms ->
  Z.of_nat (length (evaluated (make_slices dm cpus Nperms Nallperms))) <=
  Nperms.
Proof.
  intros H. rewrite make_slices_eq, evaluated_app, length_app.
  pose proof (evaluated_firsts_length dm
                (maxslicesize cpus Nperms Nallperms)
                (slicesize cpus Nperms) (range (cpus - 1))
                (slicesize_nonneg cpus Nperms H)) as F.
  unfold range in F at 2. rewrite length_map, length_seq in F.
  pose proof (firsts_fit cpus Nperms H) as L.
  rewrite evaluated_cons.
  pose proof (slice_perms_length dm
                (Z.of_nat (Z.to_nat (cpus - 1)) * slicesize cpus Nperms)
                Nperms) as W.
  unfold evaluated at 2. simpl concat. rewrite app_nil_r.
  lia.
Qed.

Lemma exceed_count_bounds (tw : bool) (obs : list Q) (obsT : npfloat)
      (perms : list (list Z)) :
  0 <= exceed_count tw obs obsT perms <= Z.of_nat (length perms).
Proof.
  unfold exceed_count. split; [lia|]. apply inj_le. apply filter_length_le.
Qed.

(** ** The enumeration *)

Lemma selects_length (l : list Z) : length (selects l) = length l.
Proof.
  induction l as [|a l IH]; simpl; [reflexivity|].
  now rewrite length_map, IH.
Qed.

Lemma selects_rest (l : list Z) (p : Z * list Z) :
  In p (selects l) -> S (length (snd p)) = length l.
Proof.
  revert p. induction l as [|a l IH]; intros p; simpl; [tauto|].
  intros [<-|H]; [reflexivity|].
  apply in_map_iff in H. destruct H as (p' & <- & H). simpl.
  now rewrite (IH p' H).
Qed.

Lemma flat_map_length_const {A B : Type} (f : A -> list B) (c : nat)
      (l : list A) :
  (forall a, In a l -> length (f a) = c) ->
  length (flat_map f l) = (length l * c)%nat.
Proof.
  induction l as [|a l IH]; intros H; simpl; [reflexivity|].
  rewrite length_app, (H a) by now left.
  rewrite IH by (intros; apply H; now right). reflexivity.
Qed.

(** There are [n!] permutations of [n] labels, the count the coordinator
    takes from [math.factorial]. *)
Lemma permutations_length (l : list Z) :
  Z.of_nat (length (permutations l)) = factorial (length l).
Proof.
  unfold permutations, factorial. f_equal.
  remember (length l) as n eqn:E. revert l E.
  induction n as [|n IH]; intros l E; [reflexivity|].
  cbn [permutations_aux].
  rewrite (flat_map_length_const _ (fact n)).
  - rewrite selects_length, <- E. reflexivity.
  - intros p Hp. rewrite length_map. apply IH.
    apply selects_rest in Hp. lia.
Qed.

(** ** The identity labelling *)

Lemma permutations_aux_head (l : list Z) :
  exists rest, permutations_aux (length l) l = l :: rest.
Proof.
  induction l as [|a l [rest IH]]; simpl.
  - now exists [].
  - rewrite IH. simpl. eexists. reflexivity.
Qed.

Lemma permutations_head (l : list Z) :
  exists rest, permutations l = l :: rest.
Proof. apply permutations_aux_head. Qed.

Lemma in_evaluated (slices : list permslice) (ps : permslice)
      (perms : list (list Z)) (p : list Z) :
  In ps slices -> slice_perms ps = Some perms -> In p perms ->
  In p (evaluated slices).
Proof.
  intros Hps E Hp. unfold evaluated, slice_runs.
  apply in_concat. exists perms. split; [|exact Hp].
  apply in_flat_map. exists ps. split; [exact Hps|].
  rewrite E. now left.
Qed.

Lemma range_pos (n : Z) : 0 < n -> exists l, range n = 0 :: l.
Proof.
  intros H. unfold range. destruct (Z.to_nat n) eqn:E; [lia|].
  simpl. eexists. reflexivity.
Qed.

Lemma make_slices_start (dm : list Z) (cpus Nperms Nallperms : Z) :
  0 < Nperms ->
  exists ei, 0 < ei <= Nperms /\
             In (dm, 0, ei) (make_slices dm cpus Nperms Nallperms).
Proof.
  intros H. rewrite make_slices_eq.
  pose proof (slicesize_nonneg cpus Nperms ltac:(lia)) as S.
  pose proof (firsts_fit cpus Nperms ltac:(lia)) as F.
  destruct (Z.eq_dec (Z.of_nat (Z.to_nat (cpus - 1)) * slicesize cpus Nperms) 0)
    as [E|E].
  - exists Nperms. split; [lia|]. apply in_or_app. right.
    rewrite E. now left.
  - assert (0 < cpus - 1) by lia.
    destruct (range_pos (cpus - 1)) as [l ->]; [assumption|].
    exists (slicesize cpus Nperms). split; [nia|].
    apply in_or_app. left. simpl. now left.
Qed.

Lemma identity_evaluated (dm : list Z) (cpus Nperms Nallperms : Z) :
  0 < Nperms <= maxint ->
  In dm (evaluated (make_slices dm cpus Nperms Nallperms)).
Proof.
  intros [H M].
  destruct (make_slices_start dm cpus Nperms Nallperms H) as (ei & P & I).
  assert (0 <= maxint) by (unfold maxint; lia).
  apply (in_evaluated _ _ _ dm I (slice_perms_some dm 0 ei ltac:(lia) ltac:(lia))).
  destruct (permutations_head dm) as [rest ->]. simpl.
  destruct (Z.to_nat (ei - 0)) eqn:E; [lia|]. now left.
Qed.

Lemma exceeds_refl (tw : bool) (q : Q) : exceeds tw (Fin q) (Fin q).
Proof. destruct tw; simpl; apply Qle_refl. Qed.

Lemma exceed_count_in (tw : bool) (obs : list Q) (obsT : npfloat)
      (perms : list (list Z)) (p : list Z) :
  In p perms -> exceeds tw (statistic obs p) obsT ->
  1 <= exceed_count tw obs obsT perms.
Proof.
  intros I E. induction perms as [|p' perms IH]; [destruct I|].
  rewrite exceed_count_cons.
  pose proof (exceed_count_bounds tw obs obsT perms).
  destruct I as [->|I].
  - destruct (exceeds_dec tw (statistic obs p) obsT); [lia|contradiction].
  - specialize (IH I).
    destruct (exceeds_dec tw (statistic obs p') obsT); lia.
Qed.

(** ** Slices that partition the range *)

Lemma in_range_list (i n : Z) : In i (range n) -> 0 <= i < n.
Proof.
  unfold range. intros H. apply in_map_iff in H.
  destruct H as (j & <- & H). apply in_seq in H. lia.
Qed.

Lemma count_perms_uncapped (n : nat) (maxperm : option Z) :
  uncapped n maxperm -> count_perms (factorial n) maxperm = factorial n.
Proof.
  destruct maxperm as [m|]; simpl; [|reflexivity].
  intros H. destruct (factorial n >? m) eqn:E; [lia | reflexivity].
Qed.

Lemma make_slices_chunks (dm : list Z) (cpus Nperms Nallperms : Z) :
  cpus <= 2 \/ Nperms / cpus = Nallperms / cpus ->
  make_slices dm cpus Nperms Nallperms =
  chunks dm (Z.to_nat (cpus - 1)) (slicesize cpus Nperms) Nperms.
Proof.
  intros C. rewrite make_slices_eq. unfold chunks. f_equal.
  apply map_ext_in. intros i Hi. apply in_range_list in Hi.
  destruct C as [C|C].
  - replace i with 0 by lia. reflexivity.
  - replace (maxslicesize cpus Nperms Nallperms) with (slicesize cpus Nperms);
      [reflexivity|].
    unfold maxslicesize, slicesize. destruct (cpus >? 1); congruence.
Qed.

Lemma ranges_chunks (dm : list Z) (k : nat) (s n : Z) :
  ranges (chunks dm k s n) =
  map (fun j => (Z.of_nat j * s, Z.of_nat j * s + s)) (seq 0 k) ++
  [(Z.of_nat k * s, n)].
Proof.
  unfold ranges, chunks. now rewrite map_app, !map_map.
Qed.

Lemma chunks_nth (dm : list Z) (k : nat) (s n : Z) (a : nat) (r : Z * Z) :
  nth_error (ranges (chunks dm k s n)) a = Some r ->
  (a < k)%nat /\ r = (Z.of_nat a * s, Z.of_nat a * s + s) \/
  a = k /\ r = (Z.of_nat k * s, n).
Proof.
  rewrite ranges_chunks. destruct (Nat.lt_ge_cases a k) as [L|L].
  - rewrite nth_error_app1 by now rewrite length_map, length_seq.
    rewrite nth_error_map, nth_error_seq.
    rewrite (proj2 (Nat.ltb_lt a k) L). simpl. intros [= <-]. now left.
  - rewrite nth_error_app2 by now rewrite length_map, length_seq.
    rewrite length_map, length_seq.
    destruct (a - k)%nat as [|d] eqn:D; simpl.
    + intros [= <-]. right. split; [lia | reflexivity].
    + now destruct d.
Qed.

Lemma chunks_disjoint (dm : list Z) (k : nat) (s n : Z) :
  0 <= s -> pairwise_disjoint (ranges (chunks dm k s n)).
Proof.
  intros Hs i j ri rj x Hi Hj Hne [I1 I2] [J1 J2].
  apply chunks_nth in Hi, Hj.
  destruct Hi as [[Li ->]|[-> ->]], Hj as [[Lj ->]|[-> ->]];
    simpl in *; try lia.
  - assert (i < j \/ j < i)%nat as [O|O] by lia; nia.
  - nia.
  - nia.
Qed.

Lemma chunks_union (dm : list Z) (k : nat) (s n : Z) :
  0 <= s -> Z.of_nat k * s <= n -> union_is (ranges (chunks dm k s n)) n.
Proof.
  intros Hs Hk x. split.
  - intros (r & I & [R1 R2]). apply In_nth_error in I. destruct I as [a I].
    apply chunks_nth in I. destruct I as [[L ->]|[-> ->]]; simpl in *; nia.
  - intros [X0 Xn]. rewrite ranges_chunks.
    destruct (Z_lt_le_dec x (Z.of_nat k * s)) as [L|L].
    + assert (Sp : 0 < s) by nia.
      pose proof (Z.div_mod x s ltac:(lia)) as D.
      pose proof (Z.mod_pos_bound x s Sp) as B.
      assert (Q0 : 0 <= x / s) by (apply Z.div_pos; lia).
      assert (Qk : x / s < Z.of_nat k)
        by (apply Z.div_lt_upper_bound; lia).
      exists (x / s * s, x / s * s + s). split.
      * apply in_or_app. left. apply in_map_iff.
        exists (Z.to_nat (x / s)). split.
        -- now rewrite Z2Nat.id.
        -- apply in_seq. lia.
      * unfold in_range. simpl. lia.
    + exists (Z.of_nat k * s, n). split.
      * apply in_or_app. right. now left.
      * unfold in_range. simpl. lia.
Qed.

Lemma firstn_then_firstn {A : Type} (a b : nat) (l : list A) :
  firstn a l ++ firstn b (skipn a l) = firstn (a + b) l.
Proof.
  revert l. induction a as [|a IH]; intros l; [reflexivity|].
  destruct l as [|e l]; simpl.
  - now rewrite firstn_nil.
  - now rewrite IH.
Qed.

Lemma evaluated_single (dm : list Z) (si ei : Z) :
  0 <= si <= maxint -> 0 <= ei <= maxint ->
  evaluated [(dm, si, ei)] =
  firstn (Z.to_nat (ei - si)) (skipn (Z.to_nat si) (permutations dm)).
Proof.
  intros H1 H2. rewrite evaluated_cons, slice_perms_some by assumption.
  unfold evaluated. simpl. apply app_nil_r.
Qed.

Lemma evaluated_firsts (dm : list Z) (s : Z) (k : nat) :
  0 <= s -> Z.of_nat k * s <= maxint ->
  evaluated (map (fun i => (dm, i * s, i * s + s)) (map Z.of_nat (seq 0 k))) =
  firstn (Z.to_nat (Z.of_nat k * s)) (permutations dm).
Proof.
  intros Hs. induction k as [|k IH]; intros M; [reflexivity|].
  assert (0 <= Z.of_nat k * s) by (apply Z.mul_nonneg_nonneg; lia).
  rewrite seq_S, !map_app, evaluated_app, IH by lia. cbn [map Nat.add].
  rewrite evaluated_single by lia.
  rewrite firstn_then_firstn. f_equal. lia.
Qed.

(** Slices laid end to end are evaluated as one run from 0 to [n]. *)
Lemma evaluated_chunks (dm : list Z) (k : nat) (s n : Z) :
  0 <= s -> Z.of_nat k * s <= n -> n <= maxint ->
  evaluated (chunks dm k s n) = firstn (Z.to_nat n) (permutations dm).
Proof.
  intros Hs Hk M. unfold chunks.
  assert (0 <= Z.of_nat k * s) by (apply Z.mul_nonneg_nonneg; lia).
  rewrite evaluated_app, evaluated_firsts, evaluated_single by lia.
  rewrite firstn_then_firstn. f_equal. lia.
Qed.

(** C1, as the code has it.  With a valid cap, when the cap does not cut the
    permutation space or there are at most two processes, the slice ranges
    are pairwise disjoint and their union is [[0, Nperms)]. *)
Theorem slices_partition
        (cpu_count : Z) (x y : list Q) (maxperm maxcpu : option Z) :
  valid_cap maxperm ->
  uncapped (length (design x y)) maxperm \/
  count_cpus cpu_count maxcpu <= 2 ->
  pairwise_disjoint (ranges (slices_of cpu_count x y maxperm maxcpu)) /\
  union_is (ranges (slices_of cpu_count x y maxperm maxcpu))
           (count_perms (factorial (length (design x y))) maxperm).
Proof.
  intros V C.
  pose proof (count_perms_pos (length (design x y)) maxperm V) as P.
  unfold slices_of. rewrite make_slices_chunks.
  - split.
    + apply chunks_disjoint. apply slicesize_nonneg. lia.
    + apply chunks_union; [apply slicesize_nonneg | apply firsts_fit]; lia.
  - destruct C as [C|C]; [right | now left].
    now rewrite (count_perms_uncapped _ _ C).
Qed.

Lemma slices_partition_witness :
  pairwise_disjoint (ranges (slices_of 4 [1; 2]%Q [3; 4]%Q None (Some 4))) /\
  union_is (ranges (slices_of 4 [1; 2]%Q [3; 4]%Q None (Some 4)))
           (count_perms (factorial (length (design [1; 2]%Q [3; 4]%Q))) None).
Proof.
  apply (slices_partition 4 [1; 2]%Q [3; 4]%Q None (Some 4)).
  - exact I.
  - left. exact I.
Defined.

(** C1 as stated fails under a cap with three processes: three
    observations, a cap of 3 and 3 CPUs give the ranges [0,1), [2,3), [2,3);
    index 2 lies in two of them and index 1 in none. *)
Lemma slices_not_partition :
  ranges (slices_of 3 [1%Q] [2; 3]%Q (Some 3) (Some 3)) =
  [(0, 1); (2, 3); (2, 3)] /\
  ~ pairwise_disjoint (ranges (slices_of 3 [1%Q] [2; 3]%Q (Some 3) (Some 3))) /\
  ~ union_is (ranges (slices_of 3 [1%Q] [2; 3]%Q (Some 3) (Some 3)))
             (count_perms (factorial (length (design [1%Q] [2; 3]%Q)))
                          (Some 3)).
Proof.
  split; [reflexivity|]. split.
  - intros H. apply (H 1%nat 2%nat (2, 3) (2, 3) 2); try reflexivity.
    + discriminate.
    + unfold in_range. simpl. lia.
    + unfold in_range. simpl. lia.
  - intros H. destruct (H 1) as [_ H1].
    destruct H1 as (r & I & R); [simpl; lia|].
    change (In r [(0, 1); (2, 3); (2, 3)]) in I. unfold in_range in R.
    destruct I as [<-|[<-|[<-|[]]]]; simpl in R; lia.
Qed.

(** ** Slices laid end to end *)

Lemma evaluated_regular (dm : list Z) (cpus Nperms Nallperms : Z) :
  0 <= Nperms <= maxint ->
  cpus <= 2 \/ Nperms / cpus = Nallperms / cpus ->
  evaluated (make_slices dm cpus Nperms Nallperms) =
  firstn (Z.to_nat Nperms) (permutations dm).
Proof.
  intros [H M] C. rewrite make_slices_chunks by exact C.
  apply evaluated_chunks;
    [now apply slicesize_nonneg | now apply firsts_fit | exact M].
Qed.

(** ** Degenerate inputs *)

Lemma exceeds_NaN (tw : bool) (stat : npfloat) : ~ exceeds tw stat NaN.
Proof. destruct tw, stat; simpl; tauto. Qed.

Lemma exceed_count_NaN (tw : bool) (obs : list Q) (perms : list (list Z)) :
  exceed_count tw obs NaN perms = 0.
Proof.
  induction perms as [|p perms IH]; [reflexivity|].
  rewrite exceed_count_cons, IH.
  destruct (exceeds_dec tw (statistic obs p) NaN) as [E|E]; [|reflexivity].
  now apply exceeds_NaN in E.
Qed.

Lemma observed_empty (x y : list Q) :
  x = [] \/ y = [] -> observed x y = NaN.
Proof.
  rewrite observed_means. intros [-> | ->]; [reflexivity|].
  now destruct (mean x).
Qed.

Lemma count_cpus_nonpos (cpu_count m : Z) :
  m <= 0 -> count_cpus cpu_count (Some m) <= 0.
Proof.
  intros H. unfold count_cpus.
  destruct m as [|m|m]; try lia.
  - destruct (Z.ltb_spec 0 cpu_count); lia.
  - destruct (Z.ltb_spec (Z.neg m) cpu_count); lia.
Qed.

Lemma make_slices_sequential (dm : list Z) (cpus Nperms Nallperms : Z) :
  cpus <= 1 -> make_slices dm cpus Nperms Nallperms = [(dm, 0, Nperms)].
Proof.
  intros H. rewrite make_slices_eq. unfold range.
  replace (Z.to_nat (cpus - 1)) with 0%nat by lia. reflexivity.
Qed.

Lemma queue_of_last (cpu_count : Z) (x y : list Q) (tw : bool)
      (maxperm maxcpu : option Z) :
  exists si firsts,
    (0 <= count_perms (factorial (length (design x y))) maxperm -> 0 <= si) /\
    queue_of cpu_count x y tw maxperm maxcpu =
    match slice_perms (design x y, si,
                       count_perms (factorial (length (design x y))) maxperm)
    with
    | None => inl ValueError
    | Some perms =>
        inr (map (run_loop (x ++ y) (observed x y) tw)
                 (slice_runs firsts ++ [perms]))
    end.
Proof.
  unfold queue_of, slices_of. rewrite make_slices_eq, run_slices_eq.
  set (N := count_perms (factorial (length (design x y))) maxperm).
  set (cpus := count_cpus cpu_count maxcpu).
  exists (Z.of_nat (Z.to_nat (cpus - 1)) * slicesize cpus N).
  eexists. split.
  - intros H. apply Z.mul_nonneg_nonneg; [lia | now apply slicesize_nonneg].
  - rewrite slice_runs_app. cbn [slice_runs flat_map].
    destruct (slice_perms (design x y, _, N)); reflexivity.
Qed.

Example perms3 :
  permutations [0; 1; 1] =
  [[0;1;1]; [0;1;1]; [1;0;1]; [1;1;0]; [1;0;1]; [1;1;0]].
Proof. reflexivity. Qed.

Example slices_capped :
  map (fun s => (snd (fst s), snd s)) (make_slices [0;1;1] 3 3 6) =
  [(0, 1); (2, 3); (2, 3)].
Proof. reflexivity. Qed.

(** ** More on the slices *)

Lemma count_perms_le (n : nat) (maxperm : option Z) :
  count_perms (factorial n) maxperm <= factorial n.
Proof.
  destruct maxperm as [m|]; simpl; [|lia].
  destruct (factorial n >? m) eqn:E; lia.
Qed.

Lemma sizes_ordered (cpus Nperms Nallperms : Z) :
  1 < cpus -> 0 <= Nperms <= Nallperms ->
  0 <= slicesize cpus Nperms <= maxslicesize cpus Nperms Nallperms /\
  cpus * maxslicesize cpus Nperms Nallperms <= Nallperms.
Proof.
  intros C H. unfold maxslicesize, slicesize.
  destruct (cpus >? 1) eqn:E; [|lia].
  repeat split.
  - apply Z.div_pos; lia.
  - apply Z.div_le_mono; lia.
  - apply Z.mul_div_le; lia.
Qed.

(** Every slice lies inside the enumeration. *)
Lemma make_slices_bounds (dm : list Z) (cpus Nperms Nallperms : Z) :
  0 <= Nperms <= Nallperms ->
  forall ps, In ps (make_slices dm cpus Nperms Nallperms) ->
             exists si ei, ps = (dm, si, ei) /\ 0 <= si <= ei /\ ei <= Nallperms.
Proof.
  intros H ps I. rewrite make_slices_eq in I.
  apply in_app_or in I. destruct I as [I|[<-|[]]].
  - apply in_map_iff in I. destruct I as (i & <- & I).
    apply in_range_list in I.
    destruct (sizes_ordered cpus Nperms Nallperms ltac:(lia) H)
      as ((S0 & SM) & CM).
    do 2 eexists. split; [reflexivity|]. nia.
  - do 2 eexists. split; [reflexivity|].
    pose proof (firsts_fit cpus Nperms ltac:(lia)).
    pose proof (slicesize_nonneg cpus Nperms ltac:(lia)).
    nia.
Qed.

Lemma make_slices_length (dm : list Z) (cpus Nperms Nallperms : Z) :
  Z.of_nat (length (make_slices dm cpus Nperms Nallperms)) = Z.max 1 cpus.
Proof.
  rewrite make_slices_eq, length_app, length_map. unfold range.
  rewrite length_map, length_seq. simpl. lia.
Qed.

Lemma slice_perms_full (dm : list Z) (si ei : Z) :
  factorial (length dm) <= maxint ->
  0 <= si <= ei -> ei <= factorial (length dm) ->
  exists perms, slice_perms (dm, si, ei) = Some perms /\
                Z.of_nat (length perms) = ei - si.
Proof.
  intros M H1 H2. rewrite slice_perms_some by lia.
  eexists. split; [reflexivity|].
  pose proof (permutations_length dm) as L.
  rewrite length_firstn, length_skipn. lia.
Qed.

Lemma slice_runs_all (dm : list Z) (slices : list permslice) :
  factorial (length dm) <= maxint ->
  (forall ps, In ps slices ->
              exists si ei, ps = (dm, si, ei) /\ 0 <= si <= ei /\
                            ei <= factorial (length dm)) ->
  length (slice_runs slices) = length slices /\
  Z.of_nat (length (evaluated slices)) =
  fold_right Z.add 0 (map (fun r => snd r - fst r) (ranges slices)).
Proof.
  induction slices as [|ps slices IH]; intros M H; [split; reflexivity|].
  destruct (H ps (or_introl eq_refl)) as (si & ei & -> & B1 & B2).
  destruct (slice_perms_full dm si ei M B1 B2) as (perms & E & L).
  destruct IH as [IH1 IH2]; [exact M | intros; apply H; now right|].
  split.
  - unfold slice_runs in *. cbn [flat_map]. rewrite E.
    cbn [app length]. now rewrite IH1.
  - rewrite evaluated_cons, E, length_app, Nat2Z.inj_add, L, IH2.
    reflexivity.
Qed.

Lemma widths_make_slices (dm : list Z) (cpus Nperms Nallperms : Z) :
  fold_right Z.add 0
             (map (fun r => snd r - fst r)
                  (ranges (make_slices dm cpus Nperms Nallperms))) = Nperms.
Proof.
  rewrite make_slices_eq. unfold ranges. rewrite !map_app, !map_map.
  cbn [map fst snd]. unfold range. rewrite map_map.
  set (k := Z.to_nat (cpus - 1)).
  set (s := slicesize cpus Nperms).
  assert (F : forall (l : list nat) (t : Z),
             fold_right Z.add 0
               (map (fun j => Z.of_nat j * maxslicesize cpus Nperms Nallperms
                              + s
                              - Z.of_nat j * maxslicesize cpus Nperms Nallperms)
                    l ++ [t]) = Z.of_nat (length l) * s + t).
  { induction l as [|j l IHl]; intros t; cbn [map app fold_right length].
    - lia.
    - rewrite IHl. lia. }
  rewrite F, length_seq. lia.
Qed.

Lemma valid_cap_bounds (n : nat) (maxperm : option Z) :
  valid_cap maxperm ->
  0 <= count_perms (factorial n) maxperm <= factorial n.
Proof.
  intros V. pose proof (count_perms_pos n maxperm V).
  pose proof (count_perms_le n maxperm). lia.
Qed.

Lemma ranges_make_slices (dm : list Z) (cpus Nperms Nallperms : Z) :
  ranges (make_slices dm cpus Nperms Nallperms) =
  map (fun j => (Z.of_nat j * maxslicesize cpus Nperms Nallperms,
                 Z.of_nat j * maxslicesize cpus Nperms Nallperms +
                 slicesize cpus Nperms))
      (seq 0 (Z.to_nat (cpus - 1))) ++
  [(Z.of_nat (Z.to_nat (cpus - 1)) * slicesize cpus Nperms, Nperms)].
Proof.
  rewrite make_slices_eq. unfold ranges, range.
  now rewrite map_app, !map_map.
Qed.

Lemma strided_nth (m s : Z) (k a : nat) (r : Z * Z) :
  nth_error (map (fun j => (Z.of_nat j * m, Z.of_nat j * m + s)) (seq 0 k)) a =
  Some r ->
  (a < k)%nat /\ r = (Z.of_nat a * m, Z.of_nat a * m + s).
Proof.
  rewrite nth_error_map, nth_error_seq.
  destruct (Nat.ltb_spec a k); simpl; [|discriminate].
  intros [= <-]. split; [assumption | reflexivity].
Qed.

(** X3.  With a valid cap every slice range satisfies
    [0 <= start <= end <= n!], and the ranges of the slices handed to child
    processes (all but the last) are pairwise disjoint, under a cap as
    well. *)
Theorem child_slices_disjoint
        (cpu_count : Z) (x y : list Q) (maxperm maxcpu : option Z) :
  valid_cap maxperm ->
  (forall r, In r (ranges (slices_of cpu_count x y maxperm maxcpu)) ->
             0 <= fst r <= snd r /\
             snd r <= factorial (length x + length y)) /\
  pairwise_disjoint
    (removelast (ranges (slices_of cpu_count x y maxperm maxcpu))).
Proof.
  intros V.
  pose proof (valid_cap_bounds (length (design x y)) maxperm V) as B.
  split.
  - intros r I. unfold ranges in I. apply in_map_iff in I.
    destruct I as (ps & <- & I). unfold slices_of in I.
    apply (make_slices_bounds _ _ _ _ B) in I.
    destruct I as (si & ei & -> & B1 & B2). simpl.
    rewrite <- design_length. lia.
  - unfold slices_of. rewrite ranges_make_slices, removelast_last.
    set (cpus := count_cpus cpu_count maxcpu).
    set (N := count_perms _ _) in *.
    set (Nall := factorial _) in *.
    intros i j ri rj k Hi Hj Hne [I1 I2] [J1 J2].
    apply strided_nth in Hi, Hj.
    destruct Hi as [Li ->], Hj as [Lj ->]. simpl in *.
    destruct (sizes_ordered cpus N Nall ltac:(lia) B) as ((S0 & SM) & _).
    assert (i < j \/ j < i)%nat as [O|O] by lia; nia.
Qed.

Lemma child_slices_disjoint_witness :
  (forall r, In r (ranges (slices_of 4 [1%Q] [2; 3; 4]%Q (Some 4) (Some 4))) ->
             0 <= fst r <= snd r /\ snd r <= factorial (1 + 3)) /\
  pairwise_disjoint
    (removelast (ranges (slices_of 4 [1%Q] [2; 3; 4]%Q (Some 4) (Some 4)))).
Proof.
  apply (child_slices_disjoint 4 [1%Q] [2; 3; 4]%Q (Some 4) (Some 4)).
  simpl. lia.
Defined.

Lemma evaluated_small (dm : list Z) (cpus Nperms Nallperms : Z) :
  0 <= Nperms < cpus -> Nperms <= maxint ->
  evaluated (make_slices dm cpus Nperms Nallperms) =
  firstn (Z.to_nat Nperms) (permutations dm).
Proof.
  intros H M. destruct (Z_le_gt_dec cpus 2) as [C|C].
  - apply evaluated_regular; [lia | now left].
  - assert (S0 : slicesize cpus Nperms = 0).
    { unfold slicesize. destruct (cpus >? 1) eqn:E; [|lia].
      apply Z.div_small. lia. }
    rewrite make_slices_eq, evaluated_app, S0.
    pose proof (evaluated_firsts_length dm
                  (maxslicesize cpus Nperms Nallperms) 0 (range (cpus - 1))
                  ltac:(lia)) as L.
    assert (F : evaluated
                  (map (fun i => (dm, i * maxslicesize cpus Nperms Nallperms,
                                  i * maxslicesize cpus Nperms Nallperms + 0))
                       (range (cpus - 1))) = [])
      by (apply length_zero_iff_nil; lia).
    rewrite F, Z.mul_0_r, evaluated_single by lia.
    simpl. now rewrite Z.sub_0_r.
Qed.

(** ** Bounds on a partial result *)

Lemma slice_perms_negative (dm : list Z) (si ei : Z) :
  si < 0 \/ ei < 0 -> slice_perms (dm, si, ei) = None.
Proof.
  intros H. unfold slice_perms, islice.
  destruct (si <? 0) eqn:E1; [reflexivity|].
  destruct (ei <? 0) eqn:E2; [reflexivity|]. lia.
Qed.

Lemma run_loop_bounds (obs : list Q) (obsT : npfloat) (tw : bool)
      (perms : list (list Z)) :
  exists m c,
    run_loop obs obsT tw perms = (Fin m, c) /\ (0 <= m)%Q /\
    0 <= c <= Z.of_nat (length perms).
Proof.
  destruct (fold_upd_spec (map (permT obs) perms) 0) as (m & E & L & _).
  exists m, (exceed_count tw obs obsT perms).
  split; [|split; [exact L | apply exceed_count_bounds]].
  apply injective_projections; simpl.
  - now rewrite run_loop_maxT.
  - apply run_loop_overT.
Qed.

(** ** More on the reduction *)

(** X8.  The order in which the partial results leave the queue does not
    matter: two queues with the same items in another order give the same
    total count and the same maximum (as a number). *)
Theorem reduction_order_irrelevant (queue queue' : list partial) :
  Permutation queue queue' ->
  snd (drain queue) = snd (drain queue') /\
  exists m m',
    fst (drain queue) = Fin m /\ fst (drain queue') = Fin m' /\ (m == m')%Q.
Proof.
  intros P. unfold drain. split.
  - rewrite !fold_drain_overT. f_equal.
    apply sum_permutation. now apply Permutation_map.
  - rewrite !fold_drain_maxT. simpl.
    pose proof (Permutation_map fst P) as Pm.
    destruct (fold_upd_spec (map fst queue) 0) as (m & E & L & U & M).
    destruct (fold_upd_spec (map fst queue') 0) as (m' & E' & L' & U' & M').
    exists m, m'. repeat split; auto.
    apply Qle_antisym.
    + destruct M as [M|M]; [injection M as ->; exact L'|].
      apply U'. now apply (Permutation_in _ Pm).
    + destruct M' as [M'|M']; [injection M' as ->; exact L|].
      apply U. now apply (Permutation_in _ (Permutation_sym Pm)).
Qed.

Lemma reduction_order_irrelevant_witness :
  snd (drain [(Fin 1, 2); (Fin (3 # 2), 1)]) =
  snd (drain [(Fin (3 # 2), 1); (Fin 1, 2)]) /\
  exists m m',
    fst (drain [(Fin 1, 2); (Fin (3 # 2), 1)]) = Fin m /\
    fst (drain [(Fin (3 # 2), 1); (Fin 1, 2)]) = Fin m' /\ (m == m')%Q.
Proof.
  apply (reduction_order_irrelevant
           [(Fin 1, 2); (Fin (3 # 2), 1)] [(Fin (3 # 2), 1); (Fin 1, 2)]).
  apply perm_swap.
Defined.

(** ** The labels of the evaluated permutations *)

Lemma selects_perm (l : list Z) (p : Z * list Z) :
  In p (selects l) -> Permutation l (fst p :: snd p).
Proof.
  revert p. induction l as [|a l IH]; intros p; simpl; [tauto|].
  intros [<-|H]; [apply Permutation_refl|].
  apply in_map_iff in H. destruct H as (p' & <- & H). simpl.
  apply perm_trans with (a :: fst p' :: snd p').
  - apply perm_skip. now apply IH.
  - apply perm_swap.
Qed.

Lemma permutations_aux_perm (n : nat) :
  forall l p : list Z,
    length l = n -> In p (permutations_aux n l) -> Permutation l p.
Proof.
  induction n as [|n IH]; intros l p E H.
  - destruct l; [|discriminate]. destruct H as [<-|[]]. apply perm_nil.
  - cbn [permutations_aux] in H. apply in_flat_map in H.
    destruct H as (s & Hs & H). apply in_map_iff in H.
    destruct H as (q & <- & H).
    apply perm_trans with (fst s :: snd s); [now apply selects_perm|].
    apply perm_skip. apply IH; [|exact H].
    apply selects_rest in Hs. lia.
Qed.

Lemma in_firstn {A : Type} (n : nat) (l : list A) (a : A) :
  In a (firstn n l) -> In a l.
Proof.
  intros H. rewrite <- (firstn_skipn n l). apply in_or_app. now left.
Qed.

Lemma in_skipn {A : Type} (n : nat) (l : list A) (a : A) :
  In a (skipn n l) -> In a l.
Proof.
  intros H. rewrite <- (firstn_skipn n l). apply in_or_app. now right.
Qed.

Lemma slice_perms_in (dm : list Z) (si ei : Z) (perms : list (list Z))
      (p : list Z) :
  slice_perms (dm, si, ei) = Some perms -> In p perms ->
  In p (permutations dm).
Proof.
  unfold slice_perms, islice.
  match goal with
  | |- context [if ?c then None else _] => destruct c
  end; [discriminate|].
  intros [= <-] H. apply in_firstn in H. now apply in_skipn in H.
Qed.

Lemma evaluated_in (slices : list permslice) (p : list Z) :
  In p (evaluated slices) ->
  exists ps perms, In ps slices /\ slice_perms ps = Some perms /\ In p perms.
Proof.
  unfold evaluated, slice_runs. intros H. apply in_concat in H.
  destruct H as (perms & H & Hp). apply in_flat_map in H.
  destruct H as (ps & Hps & H). exists ps, perms.
  destruct (slice_perms ps) as [perms'|]; [|destruct H].
  destruct H as [<-|[]]. auto.
Qed.

Lemma make_slices_dm (dm : list Z) (cpus Nperms Nallperms : Z)
      (ps : permslice) :
  In ps (make_slices dm cpus Nperms Nallperms) -> fst (fst ps) = dm.
Proof.
  rewrite make_slices_eq. intros H. apply in_app_or in H.
  destruct H as [H|[<-|[]]]; [|reflexivity].
  apply in_map_iff in H. now destruct H as (i & <- & _).
Qed.

Lemma evaluated_rearranges (dm : list Z) (cpus Nperms Nallperms : Z)
      (p : list Z) :
  In p (evaluated (make_slices dm cpus Nperms Nallperms)) ->
  Permutation dm p.
Proof.
  intros H. apply evaluated_in in H. destruct H as (ps & perms & I & E & Hp).
  pose proof (make_slices_dm _ _ _ _ _ I) as D.
  destruct ps as [[dm' si] ei]. simpl in D. subst dm'.
  apply (permutations_aux_perm (length dm)); [reflexivity|].
  exact (slice_perms_in _ _ _ _ _ E Hp).
Qed.

Lemma labelled_length (obs : list Q) (labels : list Z) (v : Z) :
  length obs = length labels ->
  length (labelled obs labels v) = count_occ Z.eq_dec labels v.
Proof.
  unfold labelled. revert labels.
  induction obs as [|o obs IH]; intros [|l labels] E; try discriminate;
    [reflexivity|].
  injection E as E. cbn [combine filter snd count_occ].
  destruct (Z.eqb_spec l v) as [->|N].
  - destruct (Z.eq_dec v v); [|congruence].
    cbn [map length]. now rewrite IH.
  - destruct (Z.eq_dec l v); [congruence|]. now apply IH.
Qed.

Lemma count_occ_repeat_Z (a b : Z) (n : nat) :
  count_occ Z.eq_dec (repeat a n) b = if Z.eq_dec a b then n else 0%nat.
Proof.
  induction n as [|n IH]; simpl.
  - now destruct (Z.eq_dec a b).
  - destruct (Z.eq_dec a b); [now rewrite IH | exact IH].
Qed.

Lemma design_count (x y : list Q) :
  count_occ Z.eq_dec (design x y) 0 = length x /\
  count_occ Z.eq_dec (design x y) 1 = length y.
Proof.
  unfold design, zeros, ones.
  rewrite !count_occ_app, !count_occ_repeat_Z. simpl. lia.
Qed.

Lemma evaluated_label_counts (x y : list Q) (cpus Nperms Nallperms : Z)
      (permdm : list Z) :
  In permdm (evaluated (make_slices (design x y) cpus Nperms Nallperms)) ->
  Permutation (design x y) permdm /\
  count_occ Z.eq_dec permdm 0 = length x /\
  count_occ Z.eq_dec permdm 1 = length y.
Proof.
  intros H. apply evaluated_rearranges in H.
  pose proof (proj1 (Permutation_count_occ Z.eq_dec _ _) H) as C.
  destruct (design_count x y) as [C0 C1].
  rewrite (C 0) in C0. rewrite (C 1) in C1. auto.
Qed.

Lemma evaluated_statistic_finite (x y : list Q) (cpus Nperms Nallperms : Z)
      (permdm : list Z) :
  x <> [] -> y <> [] ->
  In permdm (evaluated (make_slices (design x y) cpus Nperms Nallperms)) ->
  exists q, permT (x ++ y) permdm = Fin q.
Proof.
  intros Hx Hy H. apply evaluated_label_counts in H.
  destruct H as (H & C0 & C1).
  assert (L : length (x ++ y) = length permdm).
  { rewrite <- (Permutation_length H), design_length. apply length_app. }
  pose proof (labelled_length (x ++ y) permdm 0 L) as L0.
  pose proof (labelled_length (x ++ y) permdm 1 L) as L1.
  rewrite permT_statistic. unfold statistic.
  destruct (labelled (x ++ y) permdm 0) as [|a0 l0];
    [destruct x; [congruence | simpl in *; lia]|].
  destruct (labelled (x ++ y) permdm 1) as [|a1 l1];
    [destruct y; [congruence | simpl in *; lia]|].
  simpl. eexists. reflexivity.
Qed.

(** ** More on the coordinator *)

Lemma count_cpus_clamp (cpu_count m : Z) :
  cpu_count <= m -> m <> 1 -> count_cpus cpu_count (Some m) = cpu_count.
Proof.
  intros H N. unfold count_cpus.
  destruct m as [|[p|p|]|p]; try congruence;
    match goal with
    | |- (if ?a <? ?b then _ else _) = _ => destruct (Z.ltb_spec a b); lia
    end.
Qed.

Lemma count_cpus_ceiling (cpu_count m : Z) :
  1 <= m < cpu_count -> count_cpus cpu_count (Some m) = m.
Proof.
  intros H. unfold count_cpus.
  destruct m as [|[p|p|]|p]; try lia; try reflexivity;
    match goal with
    | |- (if ?a <? ?b then _ else _) = _ => destruct (Z.ltb_spec a b); lia
    end.
Qed.

(** X11.  A [max_workers] at or above the number of CPUs of the host gives
    what [max_workers = None] gives; a [max_workers] from 1 up to below that
    number is the number of slices. *)
Theorem max_workers_clamped
        (cpu_count : Z) (seen : list bool) (x y : list Q) (tw : bool)
        (maxperm : option Z) (m : Z) :
  (cpu_count <= m ->
   permutation_test cpu_count seen x y tw maxperm (Some m) =
   permutation_test cpu_count seen x y tw maxperm None) /\
  (1 <= m < cpu_count ->
   Z.of_nat (length (slices_of cpu_count x y maxperm (Some m))) = m).
Proof.
  split.
  - intros H. unfold permutation_test, queue_of, slices_of.
    destruct (Z.eq_dec m 1) as [->|N].
    + rewrite (make_slices_sequential _ (count_cpus cpu_count (Some 1)))
        by (simpl; lia).
      rewrite (make_slices_sequential _ (count_cpus cpu_count None))
        by (simpl; lia).
      replace (count_cpus cpu_count (Some 1) >? 1) with false
        by (simpl; lia).
      replace (count_cpus cpu_count None >? 1) with false
        by (simpl; lia).
      reflexivity.
    + now rewrite (count_cpus_clamp cpu_count m H N).
  - intros H. unfold slices_of.
    rewrite make_slices_length, (count_cpus_ceiling cpu_count m H). lia.
Qed.

Lemma max_workers_clamped_witness :
  permutation_test 2 [true; true] [1%Q] [2; 3]%Q true None (Some 8) =
  permutation_test 2 [true; true] [1%Q] [2; 3]%Q true None None /\
  Z.of_nat (length (slices_of 4 [1%Q] [2; 3]%Q None (Some 3))) = 3.
Proof.
  split.
  - apply (proj1 (max_workers_clamped
                    2 [true; true] [1%Q] [2; 3]%Q true None 8)). lia.
  - apply (proj2 (max_workers_clamped
                    4 [true; true] [1%Q] [2; 3]%Q true None 3)). lia.
Defined.

(** ** More on the tail rules *)

Lemma exceed_count_ext (tw tw' : bool) (obs obs' : list Q)
      (o o' : npfloat) (perms : list (list Z)) :
  (forall p, In p perms ->
             (exceeds tw (statistic obs p) o <->
              exceeds tw' (statistic obs' p) o')) ->
  exceed_count tw obs o perms = exceed_count tw' obs' o' perms.
Proof.
  induction perms as [|p perms IH]; intros H; [reflexivity|].
  rewrite !exceed_count_cons, IH by (intros; apply H; now right).
  pose proof (H p (or_introl eq_refl)) as Hp.
  destruct (exceeds_dec tw (statistic obs p) o),
           (exceeds_dec tw' (statistic obs' p) o'); tauto || reflexivity.
Qed.

Lemma exceed_count_all (tw : bool) (obs : list Q) (o : npfloat)
      (perms : list (list Z)) :
  (forall p, In p perms -> exceeds tw (statistic obs p) o) ->
  exceed_count tw obs o perms = Z.of_nat (length perms).
Proof.
  induction perms as [|p perms IH]; intros H; [reflexivity|].
  rewrite exceed_count_cons, IH by (intros; apply H; now right).
  pose proof (H p (or_introl eq_refl)) as Hp.
  destruct (exceeds_dec tw (statistic obs p) o); [|contradiction].
  cbn [length]. lia.
Qed.

(** X12.  The two-tailed rule looks at the magnitude of the observed
    statistic only: the worker counts the same permutations for an observed
    statistic and for its opposite. *)
Theorem two_tailed_ignores_sign
        (obs : list Q) (t : Q) (perms : list (list Z)) :
  snd (run_loop obs (Fin t) true perms) =
  snd (run_loop obs (Fin (- t)) true perms).
Proof.
  rewrite !run_loop_overT. apply exceed_count_ext.
  intros p _. unfold exceeds. destruct (statistic obs p) as [|s].
  - unfold abs, fge. tauto.
  - unfold abs, fge. rewrite Qabs_opp. tauto.
Qed.

(** ** The full enumeration *)

Lemma evaluated_uncapped (dm : list Z) (cpus : Z) :
  factorial (length dm) <= maxint ->
  evaluated (make_slices dm cpus (factorial (length dm))
                         (factorial (length dm))) =
  permutations dm.
Proof.
  intros M. pose proof (factorial_pos (length dm)).
  rewrite evaluated_regular by (lia || now right).
  rewrite <- permutations_length, Nat2Z.id. apply firstn_all.
Qed.


(** ** The worker against its contract *)

Lemma sum_total (a : list Q) : sum a = total a.
Proof. induction a as [|q a IH]; simpl; [reflexivity | now rewrite <- IH]. Qed.

Lemma value_mean (a : list Q) : value (mean a) = mean_of a.
Proof. destruct a; simpl; [reflexivity | now rewrite sum_total]. Qed.

Lemma value_permT (obs : list Q) (permdm : list Z) :
  value (permT obs permdm) = stat_of obs permdm.
Proof.
  rewrite permT_statistic. unfold statistic, stat_of.
  rewrite <- !value_mean.
  destruct (mean (labelled obs permdm 0)), (mean (labelled obs permdm 1));
    reflexivity.
Qed.

Lemma value_statistic (obs : list Q) (permdm : list Z) :
  value (statistic obs permdm) = stat_of obs permdm.
Proof. rewrite <- permT_statistic. apply value_permT. Qed.

Lemma exceeds_meets (tw : bool) (stat o : npfloat) :
  exceeds tw stat o <-> meets_rule tw (value stat) (value o).
Proof.
  unfold exceeds, meets_rule.
  destruct tw, stat as [|s], o as [|q]; simpl; tauto.
Qed.

Lemma exceed_count_meeting (tw : bool) (obs : list Q) (o : npfloat)
      (perms : list (list Z)) :
  exceed_count tw obs o perms = count_meeting tw obs (value o) perms.
Proof.
  unfold count_meeting.
  induction perms as [|p perms IH]; [reflexivity|].
  rewrite exceed_count_cons, IH. cbn [filter].
  pose proof (exceeds_meets tw (statistic obs p) o) as E.
  rewrite value_statistic in E.
  destruct (exceeds_dec tw (statistic obs p) o),
           (meets_rule_dec tw (stat_of obs p) (value o)); try tauto.
  all: try (cbn [length]; rewrite Nat2Z.inj_succ; apply Z.add_1_l).
  all: try apply Z.add_0_l.
Qed.

Lemma permutations_same_length (dm p : list Z) :
  In p (permutations dm) -> length p = length dm.
Proof.
  intros H. symmetry. apply Permutation_length.
  now apply (permutations_aux_perm (length dm)).
Qed.

(** C3.  For observations and a design vector of the same length: the
    statistic the worker computes for a permutation is the mean of the
    observations labelled 0 minus the mean of those labelled 1; one round of
    its loop adds one to the exceed-count exactly when
    [abs(stat) >= abs(observed_statistic)] (two-tailed) or
    [stat >= observed_statistic] (one-tailed) holds and leaves it alone
    otherwise; so the count it reports for a slice is the number of the
    permutations of the slice that meet the rule. *)
Theorem worker_statistic_and_exceed_count
        (obs : list Q) (obsT : npfloat) (tw : bool) (dm : list Z) :
  length obs = length dm ->
  (forall permdm,
      In permdm (permutations dm) ->
      length permdm = length obs /\
      value (permT obs permdm) = stat_of obs permdm) /\
  (forall st permdm,
      In permdm (permutations dm) ->
      (meets_rule tw (stat_of obs permdm) (value obsT) /\
       snd (loop_body obs obsT tw st permdm) = snd st + 1) \/
      (~ meets_rule tw (stat_of obs permdm) (value obsT) /\
       snd (loop_body obs obsT tw st permdm) = snd st)) /\
  (forall queue si ei perms,
      slice_perms (dm, si, ei) = Some perms ->
      exists maxT,
        _run_permutations queue (dm, si, ei) obs obsT tw =
        inr (queue ++ [(maxT, count_meeting tw obs (value obsT) perms)])).
Proof.
  intros L. split; [|split].
  - intros permdm I. split; [|apply value_permT].
    rewrite (permutations_same_length _ _ I). now symmetry.
  - intros st permdm _. rewrite loop_body_overT.
    pose proof (exceeds_meets tw (statistic obs permdm) obsT) as E.
    rewrite value_statistic in E.
    destruct (exceeds_dec tw (statistic obs permdm) obsT) as [X|X];
      [left | right]; split; try tauto; lia.
  - intros queue si ei perms E. rewrite run_permutations_eq, E.
    exists (fst (run_loop obs obsT tw perms)).
    rewrite <- exceed_count_meeting, <- run_loop_overT.
    now rewrite <- surjective_pairing.
Qed.

Lemma worker_statistic_and_exceed_count_witness :
  (forall permdm,
      In permdm (permutations [0; 1; 1]) ->
      length permdm = length [1; 2; 3]%Q /\
      value (permT [1; 2; 3]%Q permdm) = stat_of [1; 2; 3]%Q permdm) /\
  (forall st permdm,
      In permdm (permutations [0; 1; 1]) ->
      (meets_rule true (stat_of [1; 2; 3]%Q permdm) (value (Fin (-3 # 2))) /\
       snd (loop_body [1; 2; 3]%Q (Fin (-3 # 2)) true st permdm) =
       snd st + 1) \/
      (~ meets_rule true (stat_of [1; 2; 3]%Q permdm) (value (Fin (-3 # 2))) /\
       snd (loop_body [1; 2; 3]%Q (Fin (-3 # 2)) true st permdm) = snd st)) /\
  (forall queue si ei perms,
      slice_perms ([0; 1; 1], si, ei) = Some perms ->
      exists maxT,
        _run_permutations queue ([0; 1; 1], si, ei) [1; 2; 3]%Q
                          (Fin (-3 # 2)) true =
        inr (queue ++
             [(maxT, count_meeting true [1; 2; 3]%Q (value (Fin (-3 # 2)))
                                   perms)])).
Proof.
  apply (worker_statistic_and_exceed_count
           [1; 2; 3]%Q (Fin (-3 # 2)) true [0; 1; 1]).
  reflexivity.
Defined.

(** ** A call within the exact range *)

Lemma float_overflows_small (z : Z) :
  0 <= z <= 2 ^ 53 -> float_overflows z = false.
Proof.
  intros H. unfold float_overflows.
  assert (2 ^ 53 < 2 ^ 1024 - 2 ^ 970) by (vm_compute; reflexivity).
  destruct (Z.leb_spec (2 ^ 1024 - 2 ^ 970) (Z.abs z)); [lia | reflexivity].
Qed.

Lemma maxint_big : 2 ^ 53 <= maxint.
Proof. vm_compute. discriminate. Qed.

Lemma polled_all (n : nat) (seen : list bool) (queue : list partial) :
  seen_all n seen -> (length queue <= n)%nat -> polled seen queue = queue.
Proof.
  unfold seen_all. revert seen queue.
  induction n as [|n IH]; intros seen queue H L.
  - destruct queue; [now destruct seen | simpl in L; lia].
  - destruct queue as [|item queue]; [now destruct seen|].
    destruct seen as [|b seen]; [discriminate|].
    simpl in H. injection H as -> H. simpl.
    rewrite (IH seen queue H); [reflexivity | simpl in L; lia].
Qed.

Lemma slice_runs_length_le (slices : list permslice) :
  (length (slice_runs slices) <= length slices)%nat.
Proof.
  induction slices as [|ps slices IH]; [apply Nat.le_refl|].
  unfold slice_runs in *. cbn [flat_map].
  destruct (slice_perms ps); simpl; lia.
Qed.

Lemma last_slice_bounds (cpu_count : Z) (x y : list Q)
      (maxperm maxcpu : option Z) :
  0 <= count_perms (factorial (length (design x y))) maxperm ->
  exists si,
    last (slices_of cpu_count x y maxperm maxcpu) ([], 0, 0) =
    (design x y, si,
     count_perms (factorial (length (design x y))) maxperm) /\
    0 <= si <= count_perms (factorial (length (design x y))) maxperm.
Proof.
  intros H. unfold slices_of. rewrite make_slices_eq, last_last.
  eexists. split; [reflexivity|]. split.
  - apply Z.mul_nonneg_nonneg; [lia | now apply slicesize_nonneg].
  - now apply firsts_fit.
Qed.

(** Within the exact range and with a valid cap a call returns, and what
    it returns comes from the items it gets from the queue. *)
Lemma permutation_test_returns (cpu_count : Z) (seen : list bool)
      (x y : list Q) (tw : bool) (maxperm maxcpu : option Z) :
  valid_cap maxperm -> exact_range (length (design x y)) ->
  let Nperms := count_perms (factorial (length (design x y))) maxperm in
  let r := drain (polled seen
                    (map (run_loop (x ++ y) (observed x y) tw)
                         (slice_runs
                            (slices_of cpu_count x y maxperm maxcpu)))) in
  permutation_test cpu_count seen x y tw maxperm maxcpu =
  inr (observed x y, (inject_Z (snd r) / inject_Z Nperms)%Q, Nperms, fst r).
Proof.
  intros V R Nperms r. unfold exact_range in R.
  pose proof (valid_cap_bounds (length (design x y)) maxperm V) as B.
  pose proof (count_perms_pos (length (design x y)) maxperm V) as P.
  pose proof maxint_big as M.
  rewrite permutation_test_eq. fold Nperms in B, P |- *. fold r.
  rewrite (float_overflows_small Nperms) by lia.
  rewrite (float_overflows_small (factorial _)) by lia.
  rewrite andb_false_r.
  destruct (last_slice_bounds cpu_count x y maxperm maxcpu) as (si & E & Hsi);
    [fold Nperms; lia|].
  fold Nperms in E, Hsi. rewrite E, slice_perms_some by lia.
  destruct (Nperms =? 0) eqn:E0; [lia | reflexivity].
Qed.

(** When the loop gets every item, the call returns what one worker would
    report for all the evaluated permutations in a row. *)
Lemma permutation_test_all_read (cpu_count : Z) (seen : list bool)
      (x y : list Q) (tw : bool) (maxperm maxcpu : option Z) :
  valid_cap maxperm -> exact_range (length (design x y)) ->
  seen_all (length (slices_of cpu_count x y maxperm maxcpu)) seen ->
  let Nperms := count_perms (factorial (length (design x y))) maxperm in
  let r := run_loop (x ++ y) (observed x y) tw
                    (evaluated (slices_of cpu_count x y maxperm maxcpu)) in
  permutation_test cpu_count seen x y tw maxperm maxcpu =
  inr (observed x y, (inject_Z (snd r) / inject_Z Nperms)%Q, Nperms, fst r).
Proof.
  intros V R S Nperms r. rewrite permutation_test_returns by assumption.
  rewrite (polled_all _ _ _ S), drain_run_loops; [reflexivity|].
  rewrite length_map. apply slice_runs_length_le.
Qed.

(** ** The number of processes *)




(** ** Inputs outside the contract *)

Lemma float_overflows_abs (z : Z) :
  Z.abs z <= 2 ^ 53 -> float_overflows z = false.
Proof.
  intros H. unfold float_overflows.
  assert (2 ^ 53 < 2 ^ 1024 - 2 ^ 970) by (vm_compute; reflexivity).
  destruct (Z.leb_spec (2 ^ 1024 - 2 ^ 970) (Z.abs z)); [lia | reflexivity].
Qed.

Lemma polled_in (seen : list bool) (queue : list partial) (item : partial) :
  In item (polled seen queue) -> In item queue.
Proof.
  revert seen. induction queue as [|q queue IH]; intros [|b seen] H;
    simpl in *; try tauto.
  destruct b; [destruct H as [H|H]|]; eauto.
Qed.

Lemma drain_no_count (queue : list partial) :
  (forall item, In item queue -> snd item = 0) -> snd (drain queue) = 0.
Proof.
  intros H. unfold drain. rewrite fold_drain_overT. simpl.
  induction queue as [|q queue IH]; [reflexivity|]. simpl.
  rewrite (H q (or_introl eq_refl)), IH; [reflexivity|].
  intros item I. apply H. now right.
Qed.

Lemma count_perms_cap_nonpos (n : nat) (m : Z) :
  m <= 0 -> count_perms (factorial n) (Some m) = m.
Proof.
  intros H. pose proof (factorial_pos n). simpl.
  destruct (factorial n >? m) eqn:G; lia.
Qed.

(** C6, as the code has it.  The coordinator checks none of its inputs.
    A [max_workers] of 0 or less gives what [max_workers = 1] gives.  Within
    the exact range: an empty [x] or [y] (with a valid cap) gives a result
    whose [T] is [nan] and whose p-value is 0; a cap of 0 ends in a
    [ZeroDivisionError], at the final division, after the workers have
    filled the queue; a negative cap (of at most [2^53] in magnitude) ends
    in the [ValueError] that the worker run by the caller raises when it
    sets up its slice. *)
Theorem invalid_input_is_not_rejected
        (cpu_count : Z) (seen : list bool) (x y : list Q) (tw : bool) :
  (forall maxperm m,
      m <= 0 ->
      permutation_test cpu_count seen x y tw maxperm (Some m) =
      permutation_test cpu_count seen x y tw maxperm (Some 1)) /\
  (exact_range (length (design x y)) ->
   (forall maxperm maxcpu,
       x = [] \/ y = [] -> valid_cap maxperm ->
       exists Nperms Tmax,
         permutation_test cpu_count seen x y tw maxperm maxcpu =
         inr (NaN, (inject_Z 0 / inject_Z Nperms)%Q, Nperms, Tmax)) /\
   (forall maxcpu,
       permutation_test cpu_count seen x y tw (Some 0) maxcpu =
       inl ZeroDivisionError /\
       exists queue,
         queue_of cpu_count x y tw (Some 0) maxcpu = inr queue /\
         queue <> []) /\
   (forall m maxcpu,
       - 2 ^ 53 <= m < 0 ->
       queue_of cpu_count x y tw (Some m) maxcpu = inl ValueError /\
       permutation_test cpu_count seen x y tw (Some m) maxcpu =
       inl ValueError)).
Proof.
  split.
  - intros maxperm m H. unfold permutation_test, queue_of, slices_of.
    pose proof (count_cpus_nonpos cpu_count m H) as C.
    rewrite (make_slices_sequential _ (count_cpus cpu_count (Some m))) by lia.
    rewrite (make_slices_sequential _ (count_cpus cpu_count (Some 1)))
      by (simpl; lia).
    replace (count_cpus cpu_count (Some m) >? 1) with false by lia.
    replace (count_cpus cpu_count (Some 1) >? 1) with false by (simpl; lia).
    reflexivity.
  - intros R. pose proof R as R'. unfold exact_range in R'.
    pose proof (factorial_pos (length (design x y))) as F.
    pose proof maxint_big as M.
    split; [|split].
    + intros maxperm maxcpu E V.
      rewrite permutation_test_returns by assumption.
      cbv zeta. rewrite (observed_empty x y E).
      rewrite drain_no_count; [do 2 eexists; reflexivity|].
      intros item I. apply polled_in in I. apply in_map_iff in I.
      destruct I as (perms & <- & _).
      now rewrite run_loop_overT, exceed_count_NaN.
    + intros maxcpu.
      pose proof (count_perms_cap_nonpos (length (design x y)) 0 ltac:(lia))
        as E.
      destruct (last_slice_bounds cpu_count x y (Some 0) maxcpu)
        as (si & L & Hsi); [lia|]. rewrite E in L, Hsi.
      split.
      * rewrite permutation_test_eq, E, L.
        rewrite (float_overflows_small 0), (float_overflows_small (factorial _))
          by lia.
        rewrite andb_false_r, slice_perms_some by lia. reflexivity.
      * rewrite queue_of_eq, L, slice_perms_some by lia.
        eexists. split; [reflexivity|].
        unfold slices_of.
        destruct (make_slices_last (design x y) (count_cpus cpu_count maxcpu)
                    (count_perms (factorial (length (design x y))) (Some 0))
                    (factorial (length (design x y)))) as (firsts & si' & Es).
        unfold slices_of in L. rewrite Es in L |- *. rewrite last_last in L.
        rewrite slice_runs_app, map_app. cbn [slice_runs flat_map].
        rewrite L, slice_perms_some by lia.
        intros H. apply app_eq_nil in H. destruct H. discriminate.
    + intros m maxcpu Hm.
      pose proof (count_perms_cap_nonpos (length (design x y)) m ltac:(lia))
        as E.
      destruct (last_slice cpu_count x y (Some m) maxcpu) as (si & L & _).
      rewrite E in L. split.
      * rewrite queue_of_eq, L. now rewrite slice_perms_none by lia.
      * rewrite permutation_test_eq, E, L.
        rewrite (float_overflows_abs m), (float_overflows_small (factorial _))
          by lia.
        rewrite andb_false_r. now rewrite slice_perms_none by lia.
Qed.

Lemma invalid_input_is_not_rejected_witness :
  permutation_test 2 [true] [] [2%Q] true None (Some 0) =
  permutation_test 2 [true] [] [2%Q] true None (Some 1) /\
  (exists Nperms Tmax,
      permutation_test 2 [true] [] [2%Q] true None (Some 0) =
      inr (NaN, (inject_Z 0 / inject_Z Nperms)%Q, Nperms, Tmax)) /\
  (queue_of 2 [] [2%Q] true (Some (-1)) (Some 0) = inl ValueError /\
   permutation_test 2 [true] [] [2%Q] true (Some (-1)) (Some 0) =
   inl ValueError).
Proof.
  destruct (invalid_input_is_not_rejected 2 [true] [] [2%Q] true)
    as (A & B).
  assert (R : exact_range (length (design [] [2%Q])))
    by (vm_compute; discriminate).
  destruct (B R) as (B1 & _ & B3).
  split; [|split].
  - apply A. lia.
  - apply B1; [now left | exact I].
  - apply B3. split; [vm_compute; discriminate | lia].
Defined.

(** C6 as stated fails: a call with [max_workers = 0] returns a result,
    whether or not the loop gets the partial result, and so does a call with
    an empty [x]; a cap of 0 raises only once the queue has been filled. *)
Lemma invalid_input_accepted :
  permutation_test 2 [true] [1%Q] [2%Q] true None (Some 0) =
  inr (Fin (-1 # 1), (2 # 2)%Q, 2, Fin 1) /\
  permutation_test 2 [false] [1%Q] [2%Q] true None (Some 0) =
  inr (Fin (-1 # 1), (0 # 2)%Q, 2, Fin 0) /\
  permutation_test 2 [true] [] [2%Q] true None (Some 1) =
  inr (NaN, 0%Q, 1, Fin 0) /\
  queue_of 2 [1%Q] [2%Q] true (Some 0) None =
  inr [(Fin 0, 0); (Fin 0, 0)] /\
  permutation_test 2 [true; true] [1%Q] [2%Q] true (Some 0) None =
  inl ZeroDivisionError.
Proof. repeat split; vm_compute; reflexivity. Qed.

(** ** The polling loop *)

(** C10 fails on the code: with one slice ([max_workers = 1]) the partial
    result is put by the caller itself and the loop polls the queue right
    away; when the item has not reached the queue the loop gets nothing and
    the call returns [p = 0] for [x = [1]], [y = [2]], although the
    unpermuted design vector was evaluated and met the rule. *)
Theorem p_value_zero_when_item_missed :
  permutation_test 1 [false] [1%Q] [2%Q] true None (Some 1) =
  inr (Fin (-1 # 1), (0 # 2)%Q, 2, Fin 0) /\
  queue_of 1 [1%Q] [2%Q] true None (Some 1) = inr [(Fin 1, 2)] /\
  evaluated (slices_of 1 [1%Q] [2%Q] None (Some 1)) = [[0; 1]; [1; 0]] /\
  ~ (0 < 0 # 2)%Q.
Proof. repeat split; try (vm_compute; reflexivity). discriminate. Qed.

(** C4 fails on the code: for [x = [2,3]], [y = [1]] and one slice the
    worker reports the local maximum 3/2 (the statistic of the unpermuted
    design vector), but when the loop misses the item the call returns
    [Tmax = 0], which is not [max(0, ...)] over the evaluated
    permutations. *)
Theorem tmax_zero_when_item_missed :
  queue_of 1 [2; 3]%Q [1%Q] true None (Some 1) = inr [(Fin (3 # 2), 4)] /\
  permutation_test 1 [false] [2; 3]%Q [1%Q] true None (Some 1) =
  inr (Fin (3 # 2), (0 # 6)%Q, 6, Fin 0) /\
  In (Fin (3 # 2))
     (map (statistic ([2; 3]%Q ++ [1%Q]))
          (evaluated (slices_of 1 [2; 3]%Q [1%Q] None (Some 1)))) /\
  ~ floor_max (Fin 0)
      (map (statistic ([2; 3]%Q ++ [1%Q]))
           (evaluated (slices_of 1 [2; 3]%Q [1%Q] None (Some 1)))).
Proof.
  assert (I : In (Fin (3 # 2))
                 (map (statistic ([2; 3]%Q ++ [1%Q]))
                      (evaluated (slices_of 1 [2; 3]%Q [1%Q] None (Some 1)))))
    by (vm_compute; left; reflexivity).
  repeat split; try (vm_compute; reflexivity); [exact I|].
  intros (q & E & _ & U & _). injection E as <-.
  specialize (U _ I). vm_compute in U. now apply U.
Qed.

(** C5 fails on the code: for [x = [2,3]], [y = [1]] and one slice the only
    worker counts 4 permutations, but when the loop misses its item the
    call returns [p = 0/6], not [4/6]. *)
Theorem p_value_drops_missed_counts :
  queue_of 1 [2; 3]%Q [1%Q] true None (Some 1) = inr [(Fin (3 # 2), 4)] /\
  total_overT 1 [2; 3]%Q [1%Q] true None (Some 1) = inr 4 /\
  permutation_test 1 [false] [2; 3]%Q [1%Q] true None (Some 1) =
  inr (Fin (3 # 2), (0 # 6)%Q, 6, Fin 0) /\
  ~ (0 # 6 == inject_Z 4 / inject_Z 6)%Q.
Proof. repeat split; try (vm_compute; reflexivity). discriminate. Qed.

(** ** The conversion to float *)

Lemma factorial_zfact (n : nat) : factorial n = zfact n.
Proof.
  unfold factorial. induction n as [|n IH]; [reflexivity|].
  cbn [zfact]. rewrite <- IH. change (fact (S n)) with (S n * fact n)%nat.
  apply Nat2Z.inj_mul.
Qed.

Lemma call_overflows (cpu_count : Z) (seen : list bool) (x y : list Q)
      (tw : bool) (maxperm maxcpu : option Z) :
  1 < count_cpus cpu_count maxcpu ->
  float_overflows (factorial (length (design x y))) = true ->
  permutation_test cpu_count seen x y tw maxperm maxcpu = inl OverflowError.
Proof.
  intros C O. unfold permutation_test. rewrite O, orb_true_r.
  destruct (Z.gtb_spec (count_cpus cpu_count maxcpu) 1); [reflexivity | lia].
Qed.

Lemma sequential_call_returns (cpu_count : Z) (seen : list bool)
      (x y : list Q) (tw : bool) (m : Z) (maxcpu : option Z) :
  count_cpus cpu_count maxcpu <= 1 ->
  0 < m <= 2 ^ 53 -> m < factorial (length (design x y)) ->
  exists T p Tmax,
    permutation_test cpu_count seen x y tw (Some m) maxcpu =
    inr (T, p, m, Tmax).
Proof.
  intros C Hm L. pose proof maxint_big as M.
  assert (E : count_perms (factorial (length (design x y))) (Some m) = m)
    by (rewrite count_perms_min; lia).
  rewrite permutation_test_eq, E.
  destruct (Z.gtb_spec (count_cpus cpu_count maxcpu) 1); [lia|].
  cbn [andb]. unfold slices_of. rewrite make_slices_sequential, E by exact C.
  cbn [last]. rewrite slice_perms_some by lia.
  rewrite float_overflows_small by lia.
  destruct (Z.eqb_spec m 0); [lia|]. do 3 eexists. reflexivity.
Qed.

(** C7 fails on the code: with 171 observations, a cap of 10 and two
    processes the call raises [OverflowError] when it converts [171!] to a
    float for the size of the slices, although the cap is far below [171!];
    the same call with one process, which does not convert, returns
    [Nperms = 10]. *)
Theorem capped_call_raises_overflow :
  permutation_test 2 [true; true] (repeat 1%Q 170) [2%Q] true (Some 10) None =
  inl OverflowError /\
  exists T p Tmax,
    permutation_test 2 [true] (repeat 1%Q 170) [2%Q] true (Some 10) (Some 1) =
    inr (T, p, 10, Tmax).
Proof.
  assert (L : length (design (repeat 1%Q 170) [2%Q]) = 171%nat)
    by (rewrite design_length, repeat_length; reflexivity).
  split.
  - apply call_overflows; [reflexivity|].
    rewrite L, factorial_zfact. vm_compute. reflexivity.
  - apply sequential_call_returns.
    + reflexivity.
    + split; [reflexivity | vm_compute; discriminate].
    + rewrite L, factorial_zfact. vm_compute. reflexivity.
Qed.

(** ** More on the worker *)

Lemma slice_perms_out_of_range (dm : list Z) (si ei : Z) :
  si < 0 \/ ei < 0 \/ maxint < si \/ maxint < ei ->
  slice_perms (dm, si, ei) = None.
Proof.
  intros H. unfold slice_perms, islice.
  destruct (si <? 0) eqn:E1; [reflexivity|].
  destruct (ei <? 0) eqn:E2; [reflexivity|].
  destruct (maxint <? si) eqn:E3; [reflexivity|].
  destruct (maxint <? ei) eqn:E4; [reflexivity|]. lia.
Qed.

(** X1.  The worker raises [ValueError], leaving the queue alone, when an
    index of its slice is negative or above [sys.maxint].  Otherwise, for
    observations as many as the labels, it adds exactly one partial result
    at the end of the queue: a maximum that is a number not below 0 and a
    count between 0 and the width of the slice, and at most [n!]. *)
Theorem worker_partial_result_bounds
        (queue : list partial) (dm : list Z) (si ei : Z)
        (obs : list Q) (obsT : npfloat) (tw : bool) :
  (si < 0 \/ ei < 0 \/ maxint < si \/ maxint < ei ->
   _run_permutations queue (dm, si, ei) obs obsT tw = inl ValueError) /\
  (length obs = length dm -> 0 <= si <= maxint -> 0 <= ei <= maxint ->
   exists m c,
     _run_permutations queue (dm, si, ei) obs obsT tw =
     inr (queue ++ [(Fin m, c)]) /\
     (0 <= m)%Q /\ 0 <= c <= Z.max 0 (ei - si) /\
     c <= Z.of_nat (length (permutations dm))).
Proof.
  split.
  - intros H. now rewrite run_permutations_eq, slice_perms_out_of_range.
  - intros _ H1 H2.
    rewrite run_permutations_eq, slice_perms_some by assumption.
    set (perms := firstn _ _).
    destruct (run_loop_bounds obs obsT tw perms) as (m & c & -> & Hm & Hc).
    exists m, c. split; [reflexivity|]. split; [exact Hm|].
    assert (L : Z.of_nat (length perms) <= Z.max 0 (ei - si) /\
                (length perms <= length (permutations dm))%nat).
    { subst perms. rewrite length_firstn, length_skipn. lia. }
    lia.
Qed.

Lemma worker_partial_result_bounds_witness :
  (_run_permutations [(Fin 0, 1)] ([0; 1], -1, 1) [1; 2]%Q (Fin 0) true =
   inl ValueError) /\
  (exists m c,
      _run_permutations [(Fin 0, 1)] ([0; 1], 0, 2) [1; 2]%Q (Fin 0) true =
      inr ([(Fin 0, 1)] ++ [(Fin m, c)]) /\
      (0 <= m)%Q /\ 0 <= c <= Z.max 0 (2 - 0) /\
      c <= Z.of_nat (length (permutations [0; 1]))).
Proof.
  split.
  - apply (proj1 (worker_partial_result_bounds
                    [(Fin 0, 1)] [0; 1] (-1) 1 [1; 2]%Q (Fin 0) true)).
    left. lia.
  - apply (proj2 (worker_partial_result_bounds
                    [(Fin 0, 1)] [0; 1] 0 2 [1; 2]%Q (Fin 0) true));
      [reflexivity | |]; split; try lia; vm_compute; discriminate.
Defined.

(** X2.  A slice with indices that [islice] accepts which is empty
    ([end <= start]) or starts at or beyond the end of the enumeration gives
    the partial result [[0, 0]]. *)
Theorem worker_empty_slice
        (queue : list partial) (dm : list Z) (si ei : Z)
        (obs : list Q) (obsT : npfloat) (tw : bool) :
  0 <= si <= maxint -> 0 <= ei <= maxint ->
  ei <= si \/ Z.of_nat (length (permutations dm)) <= si ->
  _run_permutations queue (dm, si, ei) obs obsT tw =
  inr (queue ++ [(Fin 0, 0)]).
Proof.
  intros H1 H2 H. rewrite run_permutations_eq, slice_perms_some by assumption.
  replace (firstn _ _) with (@nil (list Z)); [reflexivity|].
  destruct H as [H|H].
  - now replace (Z.to_nat (ei - si)) with 0%nat by lia.
  - rewrite skipn_all2, firstn_nil; [reflexivity | lia].
Qed.

Lemma worker_empty_slice_witness :
  _run_permutations [] ([0; 1], 2, 5) [1; 2]%Q (Fin 0) true =
  inr ([] ++ [(Fin 0, 0)]).
Proof.
  apply (worker_empty_slice [] [0; 1] 2 5 [1; 2]%Q (Fin 0) true).
  - split; [lia | vm_compute; discriminate].
  - split; [lia | vm_compute; discriminate].
  - right. vm_compute. discriminate.
Defined.

(** X4.  The worker composes over adjacent slices: for observations as many
    as the labels and indices that [islice] accepts, running it on
    [[a, b)] and on [[b, c)] and reducing the two partial results as the
    coordinator does gives the partial result of one run on [[a, c)]. *)
Theorem worker_split_slice
        (queue : list partial) (dm : list Z) (a b c : Z)
        (obs : list Q) (obsT : npfloat) (tw : bool) :
  length obs = length dm -> 0 <= a <= b -> b <= c <= maxint ->
  exists r1 r2 r,
    _run_permutations queue (dm, a, b) obs obsT tw = inr (queue ++ [r1]) /\
    _run_permutations (queue ++ [r1]) (dm, b, c) obs obsT tw =
    inr ((queue ++ [r1]) ++ [r2]) /\
    _run_permutations queue (dm, a, c) obs obsT tw = inr (queue ++ [r]) /\
    drain [r1; r2] = r.
Proof.
  intros _ H1 H2.
  exists (run_loop obs obsT tw
            (firstn (Z.to_nat (b - a)) (skipn (Z.to_nat a) (permutations dm)))),
         (run_loop obs obsT tw
            (firstn (Z.to_nat (c - b)) (skipn (Z.to_nat b) (permutations dm)))),
         (run_loop obs obsT tw
            (firstn (Z.to_nat (c - a)) (skipn (Z.to_nat a) (permutations dm)))).
  rewrite !run_permutations_eq, !slice_perms_some by lia.
  split; [reflexivity|]. split; [reflexivity|]. split; [reflexivity|].
  etransitivity; [apply (drain_run_loops obs obsT tw [_; _])|]. f_equal.
  cbn [concat]. rewrite app_nil_r.
  replace (Z.to_nat b) with (Z.to_nat (b - a) + Z.to_nat a)%nat by lia.
  rewrite <- skipn_skipn, firstn_then_firstn. f_equal. lia.
Qed.

Lemma worker_split_slice_witness :
  exists r1 r2 r,
    _run_permutations [] ([0; 1; 1], 1, 3) [1; 2; 3]%Q (Fin 0) false =
    inr ([] ++ [r1]) /\
    _run_permutations ([] ++ [r1]) ([0; 1; 1], 3, 6) [1; 2; 3]%Q (Fin 0) false =
    inr (([] ++ [r1]) ++ [r2]) /\
    _run_permutations [] ([0; 1; 1], 1, 6) [1; 2; 3]%Q (Fin 0) false =
    inr ([] ++ [r]) /\
    drain [r1; r2] = r.
Proof.
  apply (worker_split_slice [] [0; 1; 1] 1 3 6 [1; 2; 3]%Q (Fin 0) false).
  - reflexivity.
  - lia.
  - split; [lia | vm_compute; discriminate].
Defined.

Lemma value_Fin (f : npfloat) (s : Q) : value f = Some s -> f = Fin s.
Proof. destruct f; simpl; congruence. Qed.

(** X5.  The worker's running maximum starts at 0: for observations as many
    as the labels, the local maximum it reports for a slice is
    [max(0, ...)] over the statistics of the slice, and exactly 0 when every
    statistic of the slice is strictly negative. *)
Theorem worker_floor
        (queue : list partial) (dm : list Z) (si ei : Z)
        (perms : list (list Z)) (obs : list Q) (obsT : npfloat) (tw : bool) :
  length obs = length dm ->
  slice_perms (dm, si, ei) = Some perms ->
  exists m c,
    _run_permutations queue (dm, si, ei) obs obsT tw =
    inr (queue ++ [(m, c)]) /\
    floor_max m (map (permT obs) perms) /\
    ((forall permdm, In permdm perms ->
                     exists s, stat_of obs permdm = Some s /\ (s < 0)%Q) ->
     m = Fin 0).
Proof.
  intros _ E. rewrite run_permutations_eq, E.
  exists (fst (run_loop obs obsT tw perms)), (snd (run_loop obs obsT tw perms)).
  split; [now rewrite <- surjective_pairing|].
  rewrite run_loop_maxT. split.
  - destruct (fold_upd_spec (map (permT obs) perms) 0) as (q & Eq & L & U & M).
    rewrite Eq. exists q. auto.
  - intros H. apply fold_upd_negative. intros t I.
    apply in_map_iff in I. destruct I as (permdm & <- & I).
    destruct (H permdm I) as (s & Es & Ls). exists s. split; [|exact Ls].
    apply value_Fin. now rewrite value_permT.
Qed.

Lemma worker_floor_witness :
  exists m c,
    _run_permutations [] ([0; 1], 0, 1) [1; 2]%Q (Fin (-1 # 1)) true =
    inr ([] ++ [(m, c)]) /\
    floor_max m (map (permT [1; 2]%Q) [[0; 1]]) /\
    ((forall permdm, In permdm [[0; 1]] ->
                     exists s, stat_of [1; 2]%Q permdm = Some s /\ (s < 0)%Q) ->
     m = Fin 0).
Proof.
  apply (worker_floor [] [0; 1] 0 1 [[0; 1]] [1; 2]%Q (Fin (-1 # 1)) true);
    reflexivity.
Defined.

(** ** More on the slices, within the exact range *)

Lemma slices_in_range (cpu_count : Z) (x y : list Q)
      (maxperm maxcpu : option Z) :
  valid_cap maxperm -> exact_range (length (design x y)) ->
  factorial (length (design x y)) <= maxint /\
  forall ps, In ps (slices_of cpu_count x y maxperm maxcpu) ->
             exists si ei, ps = (design x y, si, ei) /\ 0 <= si <= ei /\
                           ei <= factorial (length (design x y)).
Proof.
  intros V R. unfold exact_range in R. pose proof maxint_big.
  split; [lia|]. unfold slices_of. apply make_slices_bounds.
  now apply valid_cap_bounds.
Qed.

(** X6.  With a valid cap and within the exact range the coordinator builds
    [max(1, cpus)] slices, every worker sets up its slice, and once the
    processes have ended the queue holds exactly one partial result for each
    slice, in the order of the slices. *)
Theorem one_partial_result_per_slice
        (cpu_count : Z) (x y : list Q) (tw : bool)
        (maxperm maxcpu : option Z) :
  valid_cap maxperm -> exact_range (length (design x y)) ->
  exists queue,
    queue_of cpu_count x y tw maxperm maxcpu = inr queue /\
    length queue = length (slices_of cpu_count x y maxperm maxcpu) /\
    Z.of_nat (length queue) = Z.max 1 (count_cpus cpu_count maxcpu) /\
    Forall2 (fun item ps =>
               exists perms, slice_perms ps = Some perms /\
                             item = run_loop (x ++ y) (observed x y) tw perms)
            queue (slices_of cpu_count x y maxperm maxcpu).
Proof.
  intros V R.
  destruct (slices_in_range cpu_count x y maxperm maxcpu V R) as [M B].
  pose proof (valid_cap_bounds (length (design x y)) maxperm V) as Bn.
  rewrite queue_of_eq.
  destruct (last_slice_bounds cpu_count x y maxperm maxcpu) as (si & E & Hsi);
    [lia|].
  rewrite E, slice_perms_some by lia.
  eexists. split; [reflexivity|].
  rewrite length_map.
  destruct (slice_runs_all (design x y) _ M B) as [L _].
  rewrite L. split; [reflexivity|]. split.
  - unfold slices_of. apply make_slices_length.
  - clear E L. induction (slices_of cpu_count x y maxperm maxcpu)
      as [|ps slices IH]; [constructor|].
    destruct (B ps (or_introl eq_refl)) as (si' & ei' & -> & B1 & B2).
    destruct (slice_perms_full _ _ _ M B1 B2) as (perms & Ep & _).
    unfold slice_runs in *. cbn [flat_map]. rewrite Ep. cbn [app map].
    constructor; [eauto|]. apply IH. intros; apply B; now right.
Qed.

Lemma one_partial_result_per_slice_witness :
  exists queue,
    queue_of 4 [1; 2]%Q [3; 4]%Q true (Some 10) None = inr queue /\
    length queue = length (slices_of 4 [1; 2]%Q [3; 4]%Q (Some 10) None) /\
    Z.of_nat (length queue) = Z.max 1 (count_cpus 4 None) /\
    Forall2 (fun item ps =>
               exists perms,
                 slice_perms ps = Some perms /\
                 item = run_loop ([1; 2]%Q ++ [3; 4]%Q)
                                 (observed [1; 2]%Q [3; 4]%Q) true perms)
            queue (slices_of 4 [1; 2]%Q [3; 4]%Q (Some 10) None).
Proof.
  apply (one_partial_result_per_slice 4 [1; 2]%Q [3; 4]%Q true (Some 10) None).
  - simpl. lia.
  - vm_compute. discriminate.
Defined.

(** X7.  With a valid cap and within the exact range the permutations the
    slices of a call hold, counted with repetition, are exactly [Nperms],
    and [Nperms] is the cap or the length of the enumeration, whichever is
    smaller. *)
Theorem evaluated_count_is_nperms
        (cpu_count : Z) (seen : list bool) (x y : list Q) (tw : bool)
        (maxperm maxcpu : option Z) :
  valid_cap maxperm -> exact_range (length (design x y)) ->
  exists T p Nperms Tmax,
    permutation_test cpu_count seen x y tw maxperm maxcpu =
    inr (T, p, Nperms, Tmax) /\
    Z.of_nat (length (evaluated (slices_of cpu_count x y maxperm maxcpu))) =
    Nperms /\
    Nperms = match maxperm with
             | Some m =>
                 Z.min (Z.of_nat (length (permutations (design x y)))) m
             | None => Z.of_nat (length (permutations (design x y)))
             end.
Proof.
  intros V R.
  destruct (slices_in_range cpu_count x y maxperm maxcpu V R) as [M B].
  rewrite permutation_test_returns by assumption.
  do 4 eexists. split; [reflexivity|]. split.
  - destruct (slice_runs_all (design x y) _ M B) as [_ L].
    rewrite L. unfold slices_of. apply widths_make_slices.
  - rewrite permutations_length.
    destruct maxperm as [m|]; [apply count_perms_min | reflexivity].
Qed.

Lemma evaluated_count_is_nperms_witness :
  exists T p Nperms Tmax,
    permutation_test 4 [true; true; true; true] [1%Q] [2; 3; 4]%Q true
                     (Some 4) (Some 4) =
    inr (T, p, Nperms, Tmax) /\
    Z.of_nat (length (evaluated
                        (slices_of 4 [1%Q] [2; 3; 4]%Q (Some 4) (Some 4)))) =
    Nperms /\
    Nperms = Z.min (Z.of_nat (length (permutations
                                        (design [1%Q] [2; 3; 4]%Q)))) 4.
Proof.
  apply (evaluated_count_is_nperms
           4 [true; true; true; true] [1%Q] [2; 3; 4]%Q true (Some 4) (Some 4)).
  - simpl. lia.
  - vm_compute. discriminate.
Defined.

(** X9.  With a valid cap and within the exact range, when the cap does not
    cut the permutation space, or there are at most two processes, or there
    are more processes than permutations to run, the slices together hold
    exactly the first [Nperms] permutations of the enumeration, each once
    and in order; without a cut that is the whole enumeration. *)
Theorem evaluated_is_prefix
        (cpu_count : Z) (x y : list Q) (maxperm maxcpu : option Z) :
  valid_cap maxperm -> exact_range (length (design x y)) ->
  uncapped (length (design x y)) maxperm \/
  count_cpus cpu_count maxcpu <= 2 \/
  count_perms (factorial (length (design x y))) maxperm <
  count_cpus cpu_count maxcpu ->
  evaluated (slices_of cpu_count x y maxperm maxcpu) =
  firstn (Z.to_nat (count_perms (factorial (length (design x y))) maxperm))
         (permutations (design x y)) /\
  (uncapped (length (design x y)) maxperm ->
   evaluated (slices_of cpu_count x y maxperm maxcpu) =
   permutations (design x y)).
Proof.
  intros V R C. pose proof R as R'. unfold exact_range in R'.
  pose proof maxint_big as M.
  pose proof (valid_cap_bounds (length (design x y)) maxperm V) as B.
  assert (E : evaluated (slices_of cpu_count x y maxperm maxcpu) =
              firstn (Z.to_nat
                        (count_perms (factorial (length (design x y))) maxperm))
                     (permutations (design x y))).
  { unfold slices_of. destruct C as [U|[C|C]].
    - apply evaluated_regular; [lia|]. right.
      now rewrite (count_perms_uncapped _ _ U).
    - apply evaluated_regular; [lia | now left].
    - apply evaluated_small; lia. }
  split; [exact E|].
  intros U. rewrite E, (count_perms_uncapped _ _ U).
  rewrite <- permutations_length, Nat2Z.id. apply firstn_all.
Qed.

Lemma evaluated_is_prefix_witness :
  evaluated (slices_of 4 [1; 2]%Q [3; 4]%Q None (Some 4)) =
  firstn (Z.to_nat (count_perms (factorial (length (design [1; 2]%Q [3; 4]%Q)))
                                None))
         (permutations (design [1; 2]%Q [3; 4]%Q)) /\
  (uncapped (length (design [1; 2]%Q [3; 4]%Q)) None ->
   evaluated (slices_of 4 [1; 2]%Q [3; 4]%Q None (Some 4)) =
   permutations (design [1; 2]%Q [3; 4]%Q)).
Proof.
  apply (evaluated_is_prefix 4 [1; 2]%Q [3; 4]%Q None (Some 4)).
  - exact I.
  - vm_compute. discriminate.
  - left. exact I.
Defined.

(** X10.  Every permutation a slice of a call holds rearranges the design
    vector: it is as long as the observation vector and carries the label 0
    [len(x)] times and the label 1 [len(y)] times. *)
Theorem evaluated_keep_label_counts
        (cpu_count : Z) (x y : list Q) (maxperm maxcpu : option Z)
        (permdm : list Z) :
  In permdm (evaluated (slices_of cpu_count x y maxperm maxcpu)) ->
  Permutation (design x y) permdm /\
  length permdm = length (x ++ y) /\
  count_occ Z.eq_dec permdm 0 = length x /\
  count_occ Z.eq_dec permdm 1 = length y.
Proof.
  intros H. unfold slices_of in H.
  destruct (evaluated_label_counts _ _ _ _ _ _ H) as (P & C0 & C1).
  repeat split; auto.
  rewrite <- (Permutation_length P), design_length. symmetry.
  apply length_app.
Qed.

Lemma evaluated_keep_label_counts_witness :
  Permutation (design [1%Q] [2; 3]%Q) [1; 0; 1] /\
  length [1; 0; 1] = length ([1%Q] ++ [2; 3]%Q) /\
  count_occ Z.eq_dec [1; 0; 1] 0 = length [1%Q] /\
  count_occ Z.eq_dec [1; 0; 1] 1 = length [2; 3]%Q.
Proof.
  apply (evaluated_keep_label_counts 1 [1%Q] [2; 3]%Q None None [1; 0; 1]).
  change (In [1; 0; 1]
             [[0; 1; 1]; [0; 1; 1]; [1; 0; 1]; [1; 1; 0]; [1; 0; 1]; [1; 1; 0]]).
  right. right. left. reflexivity.
Defined.

(** ** What a call makes of the items it gets *)

Lemma polled_sum (seen : list bool) (queue : list partial) :
  (forall item, In item queue -> 0 <= snd item) ->
  0 <= fold_right Z.add 0 (map snd (polled seen queue)) <=
  fold_right Z.add 0 (map snd queue).
Proof.
  revert seen. induction queue as [|q queue IH]; intros seen H.
  - destruct seen; simpl; lia.
  - pose proof (H q (or_introl eq_refl)) as Hq.
    assert (H' : forall item, In item queue -> 0 <= snd item)
      by (intros; apply H; now right).
    destruct seen as [|b seen].
    + simpl. pose proof (IH [] H'). simpl in *.
      destruct queue; simpl in *; lia.
    + pose proof (IH seen H'). destruct b; simpl; lia.
Qed.

(** X13.  With a valid cap and within the exact range a call returns, for
    whatever items the polling loop gets: [T] is the observed statistic,
    [Nperms] the number of permutations to run, [p] the sum of the
    exceed-counts of the items it got divided by [Nperms], between 0 and 1,
    and [Tmax] the reduced maximum of those items. *)
Theorem call_reduces_items_read
        (cpu_count : Z) (seen : list bool) (x y : list Q) (tw : bool)
        (maxperm maxcpu : option Z) :
  valid_cap maxperm -> exact_range (length (design x y)) ->
  exists queue p,
    queue_of cpu_count x y tw maxperm maxcpu = inr queue /\
    permutation_test cpu_count seen x y tw maxperm maxcpu =
    inr (observed x y, p,
         count_perms (factorial (length (design x y))) maxperm,
         fst (drain (polled seen queue))) /\
    p = (inject_Z (fold_right Z.add 0%Z (map snd (polled seen queue))) /
         inject_Z (count_perms (factorial (length (design x y))) maxperm))%Q /\
    (0 <= p <= 1)%Q.
Proof.
  intros V R. pose proof R as R'. unfold exact_range in R'.
  pose proof maxint_big as M.
  pose proof (valid_cap_bounds (length (design x y)) maxperm V) as B.
  pose proof (count_perms_pos (length (design x y)) maxperm V) as P.
  rewrite permutation_test_returns, queue_of_eq by assumption.
  destruct (last_slice_bounds cpu_count x y maxperm maxcpu) as (si & E & Hsi);
    [lia|].
  rewrite E, slice_perms_some by lia.
  set (queue := map _ _). set (N := count_perms _ _) in *.
  assert (O : snd (drain (polled seen queue)) =
              fold_right Z.add 0 (map snd (polled seen queue)))
    by (unfold drain; rewrite fold_drain_overT; simpl; lia).
  assert (S : 0 <= fold_right Z.add 0 (map snd (polled seen queue)) <= N).
  { assert (Q0 : forall item, In item queue -> 0 <= snd item).
    { intros item I. subst queue. apply in_map_iff in I.
      destruct I as (perms & <- & _). rewrite run_loop_overT.
      apply exceed_count_bounds. }
    pose proof (polled_sum seen queue Q0) as PS.
    assert (T : fold_right Z.add 0 (map snd queue) <= N).
    { pose proof (fold_drain_overT queue (Fin 0, 0)) as D. simpl in D.
      rewrite <- D. fold (drain queue). subst queue.
      rewrite drain_run_loops, run_loop_overT.
      pose proof (exceed_count_bounds tw (x ++ y) (observed x y)
                    (concat (slice_runs
                               (slices_of cpu_count x y maxperm maxcpu)))).
      pose proof (evaluated_length (design x y) (count_cpus cpu_count maxcpu)
                    N (factorial (length (design x y))) ltac:(lia)) as EL.
      unfold slices_of, evaluated in *. subst N. lia. }
    lia. }
  do 2 eexists. split; [reflexivity|]. split; [reflexivity|].
  rewrite O. split; [reflexivity|].
  assert (0 < inject_Z N)%Q
    by (change 0%Q with (inject_Z 0); rewrite <- Zlt_Qlt; lia).
  split.
  - apply Qle_shift_div_l; auto. rewrite Qmult_0_l.
    change 0%Q with (inject_Z 0). rewrite <- Zle_Qle. lia.
  - apply Qle_shift_div_r; auto. rewrite Qmult_1_l.
    rewrite <- Zle_Qle. lia.
Qed.

Lemma call_reduces_items_read_witness :
  exists queue p,
    queue_of 2 [1; 2; 3]%Q [4; 5; 6]%Q true (Some 10) (Some 2) = inr queue /\
    permutation_test 2 [false; true] [1; 2; 3]%Q [4; 5; 6]%Q true
                     (Some 10) (Some 2) =
    inr (observed [1; 2; 3]%Q [4; 5; 6]%Q, p,
         count_perms (factorial (length (design [1; 2; 3]%Q [4; 5; 6]%Q)))
                     (Some 10),
         fst (drain (polled [false; true] queue))) /\
    p = (inject_Z (fold_right Z.add 0%Z
                              (map snd (polled [false; true] queue))) /
         inject_Z (count_perms
                     (factorial (length (design [1; 2; 3]%Q [4; 5; 6]%Q)))
                     (Some 10%Z)))%Q /\
    (0 <= p <= 1)%Q.
Proof.
  apply (call_reduces_items_read
           2 [false; true] [1; 2; 3]%Q [4; 5; 6]%Q true (Some 10) (Some 2)).
  - simpl. lia.
  - vm_compute. discriminate.
Defined.

(** X14.  With a valid cap and within the exact range, when the polling
    loop gets every partial result: the returned [Tmax] is [max(0, ...)]
    over the statistics of all the permutations the slices hold; and when
    the observed statistic is a number, the p-value is at least
    [1 / Nperms], so strictly positive (the unpermuted design vector is
    evaluated and meets both rules), and [Tmax] is not below [T]. *)
Theorem call_with_every_item_read
        (cpu_count : Z) (seen : list bool) (x y : list Q) (tw : bool)
        (maxperm maxcpu : option Z) :
  valid_cap maxperm -> exact_range (length (design x y)) ->
  seen_all (length (slices_of cpu_count x y maxperm maxcpu)) seen ->
  exists p Tmax,
    permutation_test cpu_count seen x y tw maxperm maxcpu =
    inr (observed x y, p,
         count_perms (factorial (length (design x y))) maxperm, Tmax) /\
    floor_max Tmax
              (map (permT (x ++ y))
                   (evaluated (slices_of cpu_count x y maxperm maxcpu))) /\
    In (design x y) (evaluated (slices_of cpu_count x y maxperm maxcpu)) /\
    (forall t,
        observed x y = Fin t ->
        (1 / inject_Z (count_perms (factorial (length (design x y))) maxperm)
         <= p)%Q /\
        (0 < p)%Q /\
        exists m, Tmax = Fin m /\ (t <= m)%Q).
Proof.
  intros V R S. pose proof R as R'. unfold exact_range in R'.
  pose proof maxint_big as M.
  pose proof (count_perms_pos (length (design x y)) maxperm V) as P.
  pose proof (valid_cap_bounds (length (design x y)) maxperm V) as B.
  rewrite permutation_test_all_read by assumption.
  set (N := count_perms (factorial (length (design x y))) maxperm) in *.
  pose proof (identity_evaluated (design x y) (count_cpus cpu_count maxcpu)
                N (factorial (length (design x y))) ltac:(lia)) as I.
  fold (slices_of cpu_count x y maxperm maxcpu) in I.
  destruct (fold_upd_spec
              (map (permT (x ++ y))
                   (evaluated (slices_of cpu_count x y maxperm maxcpu))) 0)
    as (q & Eq & L & U & Mx).
  do 2 eexists. split; [reflexivity|].
  rewrite run_loop_maxT, run_loop_overT, Eq. split; [exists q; auto|].
  split; [exact I|].
  intros t Et.
  assert (X : exceeds tw (statistic (x ++ y) (design x y)) (observed x y))
    by (rewrite <- observed_identity, Et; apply exceeds_refl).
  pose proof (exceed_count_in tw (x ++ y) (observed x y) _ _ I X) as C.
  assert (H0 : (0 < inject_Z N)%Q)
    by (change 0%Q with (inject_Z 0); rewrite <- Zlt_Qlt; lia).
  assert (Lp : (1 / inject_Z N <=
                inject_Z (exceed_count tw (x ++ y) (observed x y)
                            (evaluated (slices_of cpu_count x y maxperm maxcpu)))
                / inject_Z N)%Q).
  { apply Qle_shift_div_l; auto.
    unfold Qdiv. rewrite <- Qmult_assoc, (Qmult_comm (/ _)), Qmult_inv_r.
    - rewrite Qmult_1_r. change 1%Q with (inject_Z 1).
      rewrite <- Zle_Qle. exact C.
    - intro Z0. rewrite Z0 in H0. discriminate. }
  split; [exact Lp|]. split.
  - apply Qlt_le_trans with (1 / inject_Z N)%Q; [|exact Lp].
    apply Qlt_shift_div_l; auto. rewrite Qmult_0_l. reflexivity.
  - exists q. split; [reflexivity|]. apply U. rewrite <- Et.
    change (observed x y) with (permT (x ++ y) (design x y)).
    now apply in_map.
Qed.

Lemma call_with_every_item_read_witness :
  exists p Tmax,
    permutation_test 2 [true; true] [1; 2; 3]%Q [4; 5; 6]%Q true
                     (Some 10) (Some 2) =
    inr (observed [1; 2; 3]%Q [4; 5; 6]%Q, p,
         count_perms (factorial (length (design [1; 2; 3]%Q [4; 5; 6]%Q)))
                     (Some 10), Tmax) /\
    floor_max Tmax
              (map (permT ([1; 2; 3]%Q ++ [4; 5; 6]%Q))
                   (evaluated (slices_of 2 [1; 2; 3]%Q [4; 5; 6]%Q
                                         (Some 10) (Some 2)))) /\
    In (design [1; 2; 3]%Q [4; 5; 6]%Q)
       (evaluated (slices_of 2 [1; 2; 3]%Q [4; 5; 6]%Q (Some 10) (Some 2))) /\
    (forall t,
        observed [1; 2; 3]%Q [4; 5; 6]%Q = Fin t ->
        (1 / inject_Z (count_perms
                         (factorial (length (design [1; 2; 3]%Q [4; 5; 6]%Q)))
                         (Some 10%Z))
         <= p)%Q /\
        (0 < p)%Q /\
        exists m, Tmax = Fin m /\ (t <= m)%Q).
Proof.
  apply (call_with_every_item_read
           2 [true; true] [1; 2; 3]%Q [4; 5; 6]%Q true (Some 10) (Some 2)).
  - simpl. lia.
  - vm_compute. discriminate.
  - reflexivity.
Defined.
